(** * Character registry of the game server: a shallow embedding

    The development follows [src/server/game/game.js]: the [Game] class
    (the four event helpers) and the [CharacterManager] class (registry,
    grid index, movement and kill protocols).

    JavaScript objects are mutable and shared by reference, so characters
    live in an object store ([Heap]) and every list that the source keeps
    ([characters], [targetedBy], the cells of [locations]) holds references.
    The calls the manager makes on its collaborators (socket manager, item
    manager, map manager, ...) are recorded, in program order, in an
    outbox.

    Conventions of the model:
    - numbers are integers ([Z]); a [user_id] is a string or [undefined];
    - a method is a computation in a state and exception monad; reading a
      property of [null] or [undefined] throws a [TypeError];
    - [async] methods run to completion: the steps of one call are not
      interleaved with another call;
    - the collaborators answer what they are asked and do not throw, apart
      from persistent storage, whose failure is an input of [save];
    - calls to the logger are left out. *)

From stdpp Require Import base option list gmap strings pretty.
From Stdlib Require Import ZArith.

Local Open Scope Z_scope.

(** ** JavaScript values used by the manager *)

(** A [user_id] is a string or [undefined] (non-player characters have
    none). *)
Abbreviation UserId := (option string).

(** JavaScript truthiness of a [user_id]: [undefined] and the empty string
    are falsy. *)
Definition truthy (u : UserId) : bool :=
  match u with
  | Some s => negb (String.eqb s "")
  | None => false
  end.

(** Errors that the modelled code can raise. *)
Inductive Exn :=
| TypeError (what : string)
| Error (message : string).

(** ** Characters and the object store *)

(** Identity of a [Character] object. *)
Abbreviation Ref := nat.

Record Location := {
  loc_map : string;
  loc_x : Z;
  loc_y : Z;
}.

Global Instance Location_eq_dec : EqDecision Location.
Proof. solve_decision. Defined.

(** The fields of [Character] (class [./object]) that the manager reads or
    that its methods write. *)
Record Character := {
  user_id : UserId;
  name : string;
  location : Location;
  targetedBy : list Ref;
  target : option Ref;
  hidden : bool;
  faction_id : string;
  faction : option string;
  money : Z;
  experience : Z;
}.

Global Instance Character_eq_dec : EqDecision Character.
Proof. solve_decision. Defined.

Global Instance Character_inhabited : Inhabited Character :=
  populate {| user_id := None; name := ""; location := {| loc_map := ""; loc_x := 0; loc_y := 0 |};
              targetedBy := []; target := None; hidden := false;
              faction_id := ""; faction := None; money := 0; experience := 0 |}.

Abbreviation Heap := (gmap nat Character).

(** In-place update of the object [r]. *)
Definition modify (r : Ref) (f : Character → Character) (h : Heap) : Heap :=
  <[r := f (h !!! r)]> h.

Definition set_location (l : Location) (c : Character) : Character :=
  {| user_id := user_id c; name := name c; location := l;
     targetedBy := targetedBy c; target := target c; hidden := hidden c;
     faction_id := faction_id c; faction := faction c;
     money := money c; experience := experience c |}.

Definition set_targetedBy (t : list Ref) (c : Character) : Character :=
  {| user_id := user_id c; name := name c; location := location c;
     targetedBy := t; target := target c; hidden := hidden c;
     faction_id := faction_id c; faction := faction c;
     money := money c; experience := experience c |}.

Definition set_target (t : option Ref) (c : Character) : Character :=
  {| user_id := user_id c; name := name c; location := location c;
     targetedBy := targetedBy c; target := t; hidden := hidden c;
     faction_id := faction_id c; faction := faction c;
     money := money c; experience := experience c |}.

Definition set_faction (f : option string) (c : Character) : Character :=
  {| user_id := user_id c; name := name c; location := location c;
     targetedBy := targetedBy c; target := target c; hidden := hidden c;
     faction_id := faction_id c; faction := f;
     money := money c; experience := experience c |}.

Definition set_money (m : Z) (c : Character) : Character :=
  {| user_id := user_id c; name := name c; location := location c;
     targetedBy := targetedBy c; target := target c; hidden := hidden c;
     faction_id := faction_id c; faction := faction c;
     money := m; experience := experience c |}.

Definition set_experience (e : Z) (c : Character) : Character :=
  {| user_id := user_id c; name := name c; location := location c;
     targetedBy := targetedBy c; target := target c; hidden := hidden c;
     faction_id := faction_id c; faction := faction c;
     money := money c; experience := e |}.

(** The key of a grid cell and the identifier of its room: the template
    [`${map}_${y}_${x}`]. *)
Definition location_key (p : Location) : string :=
  loc_map p +:+ "_" +:+ pretty (loc_y p) +:+ "_" +:+ pretty (loc_x p).

(** *** Methods of [Character]

    The class [Character] is imported from [./object]; its methods are
    written here from their description in the specification. *)

(** Modelled from the spec: [Character.getLocationId] is missing; the room
    identifier format is ["{map}_{y}_{x}"]. *)
Definition getLocationId (c : Character) : string := location_key (location c).

(** Modelled from the spec: [Character.updateLocation] is missing; it
    relocates the character to the given map and coordinates. *)
Definition updateLocation (r : Ref) (m : string) (px py : Z) (h : Heap) : Heap :=
  modify r (set_location {| loc_map := m; loc_x := px; loc_y := py |}) h.

(** Modelled from the spec: [Character.gridLock] is missing; [targetedBy] is
    the set of characters locking this one, and [gridLock] adds one. *)
Definition gridLock (r : Ref) (user : Ref) (h : Heap) : Heap :=
  modify r (λ c, if bool_decide (user ∈ targetedBy c) then c
                 else set_targetedBy (targetedBy c ++ [user]) c) h.

(** Modelled from the spec: [Character.releaseTarget] is missing; it
    releases the character's own outgoing target lock, if set. *)
Definition releaseTarget (r : Ref) (h : Heap) : Heap :=
  match target (h !!! r) with
  | None => h
  | Some t =>
      modify r (set_target None)
        (modify t (λ c, set_targetedBy (filter (λ u, u ≠ r) (targetedBy c)) c) h)
  end.

(** Modelled from the spec: [Character.updateCash] is missing; a contributor
    receives the given amount of cash. *)
Definition updateCash (r : Ref) (amount : Z) (h : Heap) : Heap :=
  modify r (λ c, set_money (money c + amount) c) h.

(** Modelled from the spec: [Character.updateExp] is missing; a contributor
    receives the given amount of experience. *)
Definition updateExp (r : Ref) (amount : Z) (h : Heap) : Heap :=
  modify r (λ c, set_experience (experience c + amount) c) h.

(** What [Character.die] hands back to [kill]. *)
Record Loot := {
  loot_items : list string;
  loot_cash : Z;
  loot_exp : Z;
  loot_targetedBy : list Ref;
}.

Record GameMap := {
  gm_id : string;
  gm_respawn_x : Z;
  gm_respawn_y : Z;
}.

(** ** Sockets, client actions and calls on collaborators *)

(** A socket; [socket_user] is [socket.user.user_id], or [None] when
    [socket.user] is undefined. *)
Record Socket := {
  socket_id : nat;
  socket_user : option UserId;
}.

Global Instance Socket_eq_dec : EqDecision Socket.
Proof. solve_decision. Defined.

(** Redux actions sent to clients. *)
Inductive Action :=
| NEW_EVENT (type message : string) (ignore : option (list UserId))
| ADD_ONLINE_PLAYER (uid : UserId) (player : string) (fac : option string)
| REMOVE_ONLINE_PLAYER (uid : UserId)
| UPDATE_CHARACTER (data : Character)
| LEFT_GRID (uid : UserId)
| JOINED_GRID (player : string) (uid : UserId)
| UPDATE_GROUND_ITEMS (m : string) (px py : Z).

(** [newEvent(type, message, ignore)] of [./actions]. *)
Definition newEvent (type message : string) (ignore : option (list UserId)) : Action :=
  NEW_EVENT type message ignore.

(** Calls on the collaborators, as the manager issues them. *)
Inductive Effect :=
| dispatchToUser (uid : UserId) (a : Action)
| dispatchToSocket (s : Socket) (a : Action)
| dispatchToRoom (room : string) (a : Action)
| dispatchToServer (a : Action)
| socket_join (s : Socket) (room : string)
| socket_leave (s : Socket) (room : string)
| userLeaveRoom (uid : UserId) (room : string)
| userJoinRoom (uid : UserId) (room : string)
| abilityManager_load (c : Ref)
| skillManager_load (c : Ref)
| linkCharacter (fac : string) (c : Ref)
| unlinkCharacter (fac : string) (c : Ref)
| dbSave (c : Ref)
| saveInventory (c : Ref)
| itemManager_drop (m : string) (px py : Z) (item : string)
| mapManager_updateClient (uid : UserId)
| onError (e : Exn).

(** ** The cooldown ledger *)

Record Cooldown := {
  cd_character : Ref;
  cd_action : string;
  cd_ticks : nat;
  cd_started : bool;
}.

Global Instance Cooldown_eq_dec : EqDecision Cooldown.
Proof. solve_decision. Defined.

(** ** State of the game *)

(** [characters] and [locations] are the fields of [CharacterManager];
    [locations] is [None] while the field is undefined.  [cooldowns]
    belongs to the cooldown manager, [outbox] collects the calls made on
    the other collaborators (oldest first). *)
Record Game := {
  heap : Heap;
  characters : list Ref;
  locations : option (gmap string (list Ref));
  cooldowns : list Cooldown;
  outbox : list Effect;
}.

Definition set_heap (f : Heap → Heap) (g : Game) : Game :=
  {| heap := f (heap g); characters := characters g; locations := locations g;
     cooldowns := cooldowns g; outbox := outbox g |}.

Definition set_characters (l : list Ref) (g : Game) : Game :=
  {| heap := heap g; characters := l; locations := locations g;
     cooldowns := cooldowns g; outbox := outbox g |}.

Definition set_locations (l : option (gmap string (list Ref))) (g : Game) : Game :=
  {| heap := heap g; characters := characters g; locations := l;
     cooldowns := cooldowns g; outbox := outbox g |}.

Definition set_cooldowns (l : list Cooldown) (g : Game) : Game :=
  {| heap := heap g; characters := characters g; locations := locations g;
     cooldowns := l; outbox := outbox g |}.

Definition emit (e : Effect) (g : Game) : Game :=
  {| heap := heap g; characters := characters g; locations := locations g;
     cooldowns := cooldowns g; outbox := outbox g ++ [e] |}.

(** The object behind a reference. *)
Definition deref (g : Game) (r : Ref) : Character := heap g !!! r.

(** ** A state and exception monad for the methods *)

Inductive Outcome (A : Type) :=
| Return (a : A)
| Throw (e : Exn).
Arguments Return {A} a.
Arguments Throw {A} e.

Definition M (A : Type) : Type := Game → Outcome A * Game.

Definition ret {A} (a : A) : M A := λ g, (Return a, g).
Definition throw {A} (e : Exn) : M A := λ g, (Throw e, g).
Definition bind {A B} (m : M A) (k : A → M B) : M B :=
  λ g, match m g with
       | (Return a, g') => k a g'
       | (Throw e, g') => (Throw e, g')
       end.
Definition update (f : Game → Game) : M unit := λ g, (Return tt, f g).
Definition read {A} (f : Game → A) : M A := λ g, (Return (f g), g).
Definition try_catch {A} (m : M A) (handler : Exn → M A) : M A :=
  λ g, match m g with
       | (Return a, g') => (Return a, g')
       | (Throw e, g') => handler e g'
       end.

Global Instance M_ret : MRet M := @ret.
Global Instance M_bind : MBind M := λ A B k m, bind m k.

(** [array.forEach(body)]. *)
Fixpoint forEach {A} (l : list A) (body : A → M unit) : M unit :=
  match l with
  | [] => ret tt
  | a :: l' => body a;; forEach l' body
  end.

(** The state reached and the outbox produced. *)
Definition state_of {A} (r : Outcome A * Game) : Game := r.2.
Definition outcome_of {A} (r : Outcome A * Game) : Outcome A := r.1.

(** ** Collaborators that are not part of the source files

    The world (map manager), the faction manager, the cooldown settings
    and the death transition of [Character] are taken as parameters. *)
Class Collaborators := {
  (** [mapManager.isValidLocation(map, x, y)]: a location, or nothing. *)
  isValidLocation : string → Z → Z → option Location;
  (** [mapManager.get(map)]. *)
  mapManager_get : string → option GameMap;
  (** [factionManager.get(faction_id)]: the faction, named by its id. *)
  factionManager_get : string → option string;
  (** length of the cooldown of an action, from the configuration. *)
  cooldown_duration : string → nat;
  (** [character.die()]: resets the character in place and returns the
      dropped loot. *)
  die : Ref → Heap → Loot * Heap;
}.

(** The cooldown manager ([./components/cooldown]) is not among the source
    files; the ledger is written from its description in the
    specification. *)
Module cooldownManager.

(** Modelled from the spec: the cooldown manager is missing; an entry is
    active for a (character, action) pair while its timer, once started,
    has time left. *)
Definition active (r : Ref) (action : string) (e : Cooldown) : bool :=
  bool_decide (cd_character e = r) && String.eqb (cd_action e) action
  && cd_started e && negb (Nat.eqb (cd_ticks e) 0).

(** Modelled from the spec: [cooldownManager.ticksLeft] is missing; it
    returns the time left, or zero if no entry is active. *)
Definition ticksLeft (g : Game) (r : Ref) (action : string) : nat :=
  match List.find (active r action) (cooldowns g) with
  | Some e => cd_ticks e
  | None => 0%nat
  end.

(** Modelled from the spec: [cooldownManager.add] is missing; it creates
    the ledger entry and returns a handle to it. *)
Definition add `{Collaborators} (r : Ref) (action : string) : M nat :=
  handle ← read (λ g, length (cooldowns g));
  update (λ g, set_cooldowns
                 (cooldowns g ++ [{| cd_character := r; cd_action := action;
                                     cd_ticks := cooldown_duration action;
                                     cd_started := false |}]) g);;
  mret handle.

(** Modelled from the spec: the handle's [start] is missing; it begins the
    timer of the entry. *)
Definition start (handle : nat) : M unit :=
  update (λ g, set_cooldowns
                 (alter (λ e, {| cd_character := cd_character e; cd_action := cd_action e;
                                 cd_ticks := cd_ticks e; cd_started := true |})
                        handle (cooldowns g)) g).

End cooldownManager.

(** ** class [Game]: the event helpers *)

Definition eventToUser (uid : UserId) (type message : string) : M unit :=
  update (emit (dispatchToUser uid (newEvent type message None))).

Definition eventToSocket (socket : Socket) (type message : string) : M unit :=
  update (emit (dispatchToSocket socket (newEvent type message None))).

Definition eventToRoom (room type message : string) (ignore : list UserId) : M unit :=
  update (emit (dispatchToRoom room (newEvent type message (Some ignore)))).

Definition eventToServer (type message : string) (ignore : list UserId) : M unit :=
  update (emit (dispatchToServer (newEvent type message (Some ignore)))).

(** ** class [CharacterManager] *)

(** The constructor sets [characters] to the empty list and does not assign
    [locations]. *)
Definition new_CharacterManager (objects : Heap) : Game :=
  {| heap := objects; characters := []; locations := None;
     cooldowns := []; outbox := [] |}.

(** [obj.user_id === user_id]. *)
Definition same_user (g : Game) (uid : UserId) (obj : Ref) : bool :=
  bool_decide (user_id (deref g obj) = uid).

Definition get (g : Game) (uid : UserId) : option Ref :=
  if negb (truthy uid) then None
  else List.find (same_user g uid) (characters g).

(** [updateClient(user_id)], always called without a property here: the
    payload is the character as exported to the client. *)
Definition updateClient (uid : UserId) : M unit :=
  character ← read (λ g, get g uid);
  match character with
  | None => mret tt
  | Some c =>
      characterData ← read (λ g, deref g c);
      update (emit (dispatchToUser uid (UPDATE_CHARACTER characterData)))
  end.

Definition dispatchUpdatePlayerList (uid : UserId) : M unit :=
  character ← read (λ g, get g uid);
  match character with
  | None => mret tt
  | Some c =>
      ch ← read (λ g, deref g c);
      update (emit (dispatchToServer
                      (ADD_ONLINE_PLAYER (user_id ch) (name ch) (faction ch))))
  end.

Definition dispatchRemoveFromPlayerList (uid : UserId) : M unit :=
  update (emit (dispatchToServer (REMOVE_ONLINE_PLAYER uid))).

(** [joinedGrid(character)]: the action built from name and user id. *)
Definition joinedGrid (ch : Character) : Action :=
  JOINED_GRID (name ch) (user_id ch).

(** [save(user_id)]; [db_ok] tells whether persistent storage accepts the
    write. *)
Definition save (db_ok : bool) (uid : UserId) : M unit :=
  if negb (truthy uid) then throw (Error "No user_id supplied to the save() method")
  else
    character ← read (λ g, get g uid);
    match character with
    | None => throw (Error "No user found online, matching the user_id")
    | Some c =>
        if db_ok then
          update (emit (dbSave c));;
          update (emit (saveInventory c))
        else throw (Error "storage unavailable")
    end.

Definition remove (db_ok : bool) (uid : UserId) : M unit :=
  character ← read (λ g, get g uid);
  match character with
  | None => mret tt
  | Some c =>
      ch ← read (λ g, deref g c);
      try_catch (save db_ok (user_id ch)) (λ err, update (emit (onError err)));;
      eventToRoom (getLocationId ch) "info"
        (name ch +:+ " disappears into a nearby building") [user_id ch];;
      update (emit (dispatchToRoom (getLocationId ch) (LEFT_GRID (user_id ch))));;
      match faction ch with
      | Some f => update (emit (unlinkCharacter f c))
      | None => mret tt
      end;;
      update (λ g, set_characters
                     (List.filter (λ obj, negb (same_user g uid obj)) (characters g)) g);;
      dispatchRemoveFromPlayerList uid
  end.

(** [manage(character)].  [wasLoggedIn] is what
    [socketManager.clearTimer(character.user_id)] returned, [socket] what
    [socketManager.get(character.user_id)] returns, [db_ok] the fate of the
    save made while the previous session is removed. *)
Definition manage `{Collaborators} (wasLoggedIn : bool) (socket : option Socket)
    (db_ok : bool) (character : Ref) : M unit :=
  uid ← read (λ g, user_id (deref g character));
  existingCharacter ← read (λ g, List.find (same_user g uid) (characters g));
  match existingCharacter with
  | Some existing =>
      if wasLoggedIn then
        lockers ← read (λ g, targetedBy (deref g existing));
        forEach lockers (λ user, update (set_heap (gridLock character user)));;
        remove db_ok uid
      else mret tt
  | None => mret tt
  end;;
  update (emit (abilityManager_load character));;
  update (emit (skillManager_load character));;
  fid ← read (λ g, faction_id (deref g character));
  match factionManager_get fid with
  | Some f =>
      update (emit (linkCharacter f character));;
      update (set_heap (modify character (set_faction (Some f))))
  | None => mret tt
  end;;
  update (λ g, set_characters (characters g ++ [character]) g);;
  dispatchUpdatePlayerList uid;;
  ch ← read (λ g, deref g character);
  eventToRoom (getLocationId ch) "info"
    (name ch +:+ " emerges from a nearby building") [user_id ch];;
  update (emit (dispatchToRoom (getLocationId ch) (joinedGrid ch)));;
  try_catch
    match socket with
    | Some s => update (emit (socket_join s (getLocationId ch)))
    | None => throw (TypeError "Cannot read property 'join' of undefined")
    end
    (λ err, update (emit (onError err))).

(** [load(userData)]: [record] is what [dbLoad(userData.user_id)] found.
    A found record becomes a new [Character] object, which is managed.
    (The inventory, loaded afterwards, is not among the modelled fields.) *)
Definition load `{Collaborators} (record : option Character) (wasLoggedIn : bool)
    (socket : option Socket) (db_ok : bool) : M (option Ref) :=
  match record with
  | None => mret None
  | Some data =>
      newCharacter ← read (λ g, fresh (dom (heap g)));
      update (set_heap (insert newCharacter data));;
      manage wasLoggedIn socket db_ok newCharacter;;
      mret (Some newCharacter)
  end.

(** [getLocationList(map, x, y)] in its internal mode (live references);
    [None] stands for a [null] coordinate. *)
Definition getLocationList (g : Game) (m : string) (px py : option Z) : list Ref :=
  match px, py with
  | Some vx, Some vy =>
      List.filter (λ obj, String.eqb (loc_map (location (deref g obj))) m
                          && Z.eqb (loc_y (location (deref g obj))) vy
                          && Z.eqb (loc_x (location (deref g obj))) vx)
                  (characters g)
  | _, _ =>
      List.filter (λ obj, String.eqb (loc_map (location (deref g obj))) m)
                  (characters g)
  end.


(** [playersInGrid.findIndex((char) => char.user_id === character.user_id)] *)
Definition findIndex (g : Game) (uid : UserId) (cell : list Ref) : option nat :=
  fst <$> list_find (λ char, user_id (deref g char) = uid) cell.

Definition removeFromGrid (position : Location) (character : Ref) : M unit :=
  locs ← read locations;
  match locs with
  | None => throw (TypeError "Cannot read property of undefined")
  | Some grid =>
      match grid !! location_key position with
      | None => mret tt
      | Some playersInGrid =>
          index ← read (λ g, findIndex g (user_id (deref g character)) playersInGrid);
          match index with
          | None => mret tt
          | Some i =>
              update (set_locations
                        (Some (<[location_key position := delete i playersInGrid]> grid)))
          end
      end
  end.

Definition addToGrid (position : Location) (character : Ref) : M unit :=
  let location_key := location_key position in
  locs ← read locations;
  match locs with
  | None => throw (TypeError "Cannot read property of undefined")
  | Some grid =>
      match grid !! location_key with
      | None => update (set_locations (Some (<[location_key := []]> grid)))
      | Some _ => mret tt
      end;;
      locs ← read locations;
      let grid := default ∅ locs in
      let cell := default [] (grid !! location_key) in
      index ← read (λ g, findIndex g (user_id (deref g character)) cell);
      match index with
      | Some _ => mret tt
      | None =>
          update (set_locations (Some (<[location_key := cell ++ [character]]> grid)))
      end
  end.

(** ** Movement *)

(** The payload of a [MOVE_CHARACTER] action. *)
Record MoveAction := {
  grid : string;
  direction : Z;
}.

(** [actionNewLocation[grid] = actionNewLocation[grid] + direction] on a copy
    of the location: a coordinate is added to, the map name is
    concatenated to, and any other key leaves map, x and y as they are. *)
Definition intended_location (l : Location) (a : MoveAction) : Location :=
  if String.eqb (grid a) "x" then
    {| loc_map := loc_map l; loc_x := loc_x l + direction a; loc_y := loc_y l |}
  else if String.eqb (grid a) "y" then
    {| loc_map := loc_map l; loc_x := loc_x l; loc_y := loc_y l + direction a |}
  else if String.eqb (grid a) "map" then
    {| loc_map := loc_map l +:+ pretty (direction a); loc_x := loc_x l; loc_y := loc_y l |}
  else l.

(** The [switch] naming the directions: (directionOut, directionIn); both
    stay undefined for any other key. *)
Definition direction_names (a : MoveAction) : option string * option string :=
  if String.eqb (grid a) "y" then
    if Z.eqb (direction a) 1 then (Some "South", Some "North")
    else (Some "North", Some "South")
  else if String.eqb (grid a) "x" then
    if Z.eqb (direction a) 1 then (Some "East", Some "West")
    else (Some "West", Some "East")
  else (None, None).

(** How a template string prints a possibly undefined string. *)
Definition show (s : option string) : string := default "undefined" s.

Definition move `{Collaborators} (socket : Socket) (moveAction : MoveAction) : M unit :=
  match socket_user socket with
  | None => throw (TypeError "Cannot read property 'user_id' of undefined")
  | Some uid =>
      character ← read (λ g, get g uid);
      match character with
      | None =>
          eventToSocket socket "error"
            "You do not appear to be logged in any more. Please login again."
      | Some c =>
          ch ← read (λ g, deref g c);
          let actionNewLocation := location ch in
          if negb (Nat.eqb (length (targetedBy ch)) 0) then
            list ← read (λ g, String.concat ", "
                                 (List.map (λ obj, name (deref g obj)) (targetedBy ch)));
            eventToSocket socket "warning"
              ("You can't move as the following players are aiming at you: " +:+ list)
          else if hidden ch then
            eventToSocket socket "warning"
              "You can't move as long as you are hidden. type /unhide to come out of hiding."
          else
            ticks ← read (λ g, cooldownManager.ticksLeft g c "move");
            if negb (Nat.eqb ticks 0) then mret tt
            else
              newCooldown ← cooldownManager.add c "move";
              let actionNewLocation := intended_location actionNewLocation moveAction in
              try_catch
                match isValidLocation (loc_map actionNewLocation)
                        (loc_x actionNewLocation) (loc_y actionNewLocation) with
                | None => mret tt
                | Some newLocation =>
                    let '(directionOut, directionIn) := direction_names moveAction in
                    update (set_heap (releaseTarget c));;
                    ch ← read (λ g, deref g c);
                    update (emit (socket_leave socket (getLocationId ch)));;
                    eventToRoom (getLocationId ch) "info"
                      (name ch +:+ " leaves to the " +:+ show directionOut) [user_id ch];;
                    update (emit (dispatchToRoom (getLocationId ch) (LEFT_GRID (user_id ch))));;
                    update (set_heap (updateLocation c (loc_map newLocation)
                                        (loc_x newLocation) (loc_y newLocation)));;
                    ch ← read (λ g, deref g c);
                    eventToRoom (getLocationId ch) "info"
                      (name ch +:+ " strolls in from the " +:+ show directionIn) [user_id ch];;
                    update (emit (dispatchToRoom (getLocationId ch) (joinedGrid ch)));;
                    update (emit (socket_join socket (getLocationId ch)));;
                    updateClient (user_id ch);;
                    update (emit (mapManager_updateClient (user_id ch)));;
                    cooldownManager.start newCooldown
                end
                (λ err, update (emit (onError err)))
      end
  end.

(** ** Death *)

(** [Math.floor(a / n)] on integers.  For [n = 0] JavaScript yields an
    infinity or NaN, which [kill] never hands to anybody: the list it
    iterates is then empty. *)
Definition floor_div (a : Z) (n : nat) : Z := a `div` Z.of_nat n.

(** [character.die()], run on the object store. *)
Definition character_die `{Collaborators} (c : Ref) : M Loot :=
  λ g, let '(loot, h) := die c (heap g) in (Return loot, set_heap (λ _, h) g).

(** The callback that [kill] runs on every entry of
    [droppedLoot.targetedBy]. *)
Definition reward (cashReward expReward : Z) (char : Ref) : M unit :=
  update (set_heap (updateCash char cashReward));;
  char_user_id ← read (λ g, user_id (deref g char));
  if truthy char_user_id then
    update (set_heap (updateExp char expReward));;
    updateClient char_user_id
  else mret tt.

Definition kill `{Collaborators} (uid : UserId) (killer : Ref) : M string :=
  character ← read (λ g, get g uid);
  match character with
  | None => throw (TypeError "Cannot read property 'location' of null")
  | Some c =>
      ch ← read (λ g, deref g c);
      let gameMap := mapManager_get (loc_map (location ch)) in
      droppedLoot ← character_die c;
      ch ← read (λ g, deref g c);
      let oldLocationId := getLocationId ch in
      let oldLocation := location ch in
      match gameMap with
      | None => throw (TypeError "Cannot read property 'id' of undefined")
      | Some gm =>
          let newLocation := {| loc_map := gm_id gm; loc_x := gm_respawn_x gm;
                                loc_y := gm_respawn_y gm |} in
          update (emit (userLeaveRoom (user_id ch) (getLocationId ch)));;
          update (emit (dispatchToRoom (getLocationId ch) (LEFT_GRID (user_id ch))));;
          update (set_heap (updateLocation c (loc_map newLocation)
                              (loc_x newLocation) (loc_y newLocation)));;
          forEach (loot_items droppedLoot) (λ item,
            update (emit (itemManager_drop (loc_map oldLocation) (loc_x oldLocation)
                            (loc_y oldLocation) item)));;
          let cashReward := floor_div (loot_cash droppedLoot)
                              (length (loot_targetedBy droppedLoot)) in
          let expReward := floor_div (loot_exp droppedLoot)
                             (length (loot_targetedBy droppedLoot)) in
          forEach (loot_targetedBy droppedLoot) (reward cashReward expReward);;
          killer_user_id ← read (λ g, user_id (deref g killer));
          (if truthy killer_user_id then
             ch ← read (λ g, deref g c);
             eventToUser killer_user_id "info"
               ("You find " +:+ pretty (loot_cash droppedLoot) +:+ " money on "
                +:+ name ch +:+ " body.")
           else mret tt);;
          update (emit (dispatchToRoom oldLocationId
                          (UPDATE_GROUND_ITEMS (loc_map oldLocation) (loc_x oldLocation)
                             (loc_y oldLocation))));;
          ch ← read (λ g, deref g c);
          update (emit (dispatchToRoom (getLocationId ch) (joinedGrid ch)));;
          update (emit (userJoinRoom (user_id ch) (getLocationId ch)));;
          updateClient (user_id ch);;
          update (emit (mapManager_updateClient (user_id ch)));;
          mret oldLocationId
      end
  end.

(** ** Sequences of registry operations *)

Inductive Request :=
| do_load (record : option Character) (wasLoggedIn : bool) (socket : option Socket) (db_ok : bool)
| do_manage (wasLoggedIn : bool) (socket : option Socket) (db_ok : bool) (character : Ref)
| do_remove (db_ok : bool) (uid : UserId)
| do_move (socket : Socket) (moveAction : MoveAction)
| do_kill (uid : UserId) (killer : Ref).

Definition step `{Collaborators} (g : Game) (rq : Request) : Game :=
  match rq with
  | do_load record w s ok => state_of (load record w s ok g)
  | do_manage w s ok c => state_of (manage w s ok c g)
  | do_remove ok uid => state_of (remove ok uid g)
  | do_move s a => state_of (move s a g)
  | do_kill uid killer => state_of (kill uid killer g)
  end.

Definition run `{Collaborators} (rqs : list Request) (g : Game) : Game :=
  foldl step g rqs.


(** ** Observations on states *)

(** The user ids registered online, one entry per registered object. *)
Definition ids_of (g : Game) (l : list Ref) : list UserId :=
  List.map (λ r, user_id (deref g r)) l.

Definition online_ids (g : Game) : list UserId := ids_of g (characters g).




(** The cell of the grid index at a position; no cell when the index or
    the key is missing. *)
Definition cell_at (g : Game) (position : Location) : option (list Ref) :=
  locations g ≫= (λ cells : gmap string (list Ref), cells !! location_key position).

(** Membership in a cell is by user id, as [findIndex] tests it. *)
Definition present (g : Game) (character : Ref) (cell : list Ref) : Prop :=
  ∃ char, char ∈ cell ∧ user_id (deref g char) = user_id (deref g character).

(** No cell of the index lists a user id twice. *)
Definition distinct_cells (g : Game) : Prop :=
  ∀ cells key cell, locations g = Some cells → cells !! key = Some cell →
                    NoDup (ids_of g cell).

(** The object [r] is listed in the cell of the index with key [key]. *)
Definition in_cell (g : Game) (r : Ref) (key : string) : Prop :=
  ∃ cells cell, locations g = Some cells ∧ cells !! key = Some cell ∧ r ∈ cell.







(** [part] occurs in [msg]. *)
Definition occurs_in (part msg : string) : Prop :=
  ∃ before after, msg = before +:+ part +:+ after.

(** The warning sent to a character that is aimed at. *)
Definition locked_message (g : Game) (c : Ref) : string :=
  "You can't move as the following players are aiming at you: "
  +:+ String.concat ", " (List.map (λ obj, name (deref g obj)) (targetedBy (deref g c))).

(** The reservation that [move] makes before it looks at the destination,
    and the same entry once started. *)
Definition reservation `{Collaborators} (c : Ref) : Cooldown :=
  {| cd_character := c; cd_action := "move";
     cd_ticks := cooldown_duration "move"; cd_started := false |}.

Definition running `{Collaborators} (c : Ref) : Cooldown :=
  {| cd_character := c; cd_action := "move";
     cd_ticks := cooldown_duration "move"; cd_started := true |}.

(** The location that [move] asks the map manager about. *)
Definition destination (g : Game) (c : Ref) (a : MoveAction) : Location :=
  intended_location (location (deref g c)) a.

(** The objects after a successful move to [newLocation]. *)
Definition moved (c : Ref) (newLocation : Location) (h : Heap) : Heap :=
  updateLocation c (loc_map newLocation) (loc_x newLocation) (loc_y newLocation)
    (releaseTarget c h).

(** The direction table of the specification: the action, the direction
    named to the old room, the direction named to the new room, and the
    change of x and of y. *)
Inductive compass : MoveAction → string → string → Z → Z → Prop :=
| to_south : compass {| grid := "y"; direction := 1 |} "South" "North" 0 1
| to_north : compass {| grid := "y"; direction := -1 |} "North" "South" 0 (-1)
| to_east : compass {| grid := "x"; direction := 1 |} "East" "West" 1 0
| to_west : compass {| grid := "x"; direction := -1 |} "West" "East" (-1) 0.

(** What the reward callback does to the object store. *)
Definition reward_heap (cashReward expReward : Z) (h : Heap) (char : Ref) : Heap :=
  let h1 := updateCash char cashReward h in
  if truthy (user_id (h1 !!! char)) then updateExp char expReward h1 else h1.


(** The objects once [kill] has relocated the victim and paid the
    contributors. *)
Definition paid_out (c : Ref) (gm : GameMap) (loot : Loot) (h1 : Heap) : Heap :=
  foldl (reward_heap
           (floor_div (loot_cash loot) (length (loot_targetedBy loot)))
           (floor_div (loot_exp loot) (length (loot_targetedBy loot))))
        (updateLocation c (gm_id gm) (gm_respawn_x gm) (gm_respawn_y gm) h1)
        (loot_targetedBy loot).

(** The notification sent to the killer. *)
Definition found_money (loot : Loot) (victim : string) : string :=
  "You find " +:+ pretty (loot_cash loot) +:+ " money on " +:+ victim +:+ " body.".

(** A state that differs from [g] in the object store and by further
    entries in the outbox. *)
Definition extends (g : Game) (h : Heap) (g' : Game) : Prop :=
  heap g' = h ∧ characters g' = characters g ∧ locations g' = locations g
  ∧ cooldowns g' = cooldowns g ∧ ∃ l, outbox g' = outbox g ++ l.

(** A computation that leaves one component of the state as it was. *)
Definition keeps {A B} (field : Game → B) (m : M A) : Prop :=
  ∀ g, field (m g).2 = field g.

(** Weakest precondition: the outcome and the final state of [m], run from
    [g], satisfy [Q]. *)
Definition wp {A} (m : M A) (Q : Outcome A → Game → Prop) (g : Game) : Prop :=
  Q (m g).1 (m g).2.

(** ** A small world for examples *)

Module Demo.

(** One map, ["city"], ten cells wide and high; respawn at (1,1).  A dying
    character drops all its money and its list of aimers. *)
Definition world : Collaborators := {|
  isValidLocation := λ m px py,
    if String.eqb m "city" && (0 <=? px) && (px <? 10) && (0 <=? py) && (py <? 10)
    then Some {| loc_map := m; loc_x := px; loc_y := py |} else None;
  mapManager_get := λ m,
    if String.eqb m "city"
    then Some {| gm_id := "city"; gm_respawn_x := 1; gm_respawn_y := 1 |} else None;
  factionManager_get := λ _, None;
  cooldown_duration := λ _, 5%nat;
  die := λ r h,
    ({| loot_items := []; loot_cash := money (h !!! r); loot_exp := 40;
        loot_targetedBy := targetedBy (h !!! r) |},
     modify r (λ c, set_targetedBy [] (set_money 0 c)) h);
|}.

Definition player (uid : UserId) (who : string) (px py : Z) (lockers : list Ref)
    (cash : Z) (hide : bool) : Character :=
  {| user_id := uid; name := who;
     location := {| loc_map := "city"; loc_x := px; loc_y := py |};
     targetedBy := lockers; target := None; hidden := hide;
     faction_id := ""; faction := None; money := cash; experience := 0 |}.

(** Alice (two sessions of the same user, the first aimed at by Bob and
    Carol), Bob, Carol at the edge of the map, Dave aimed at by a
    non-player guard, and Erin in hiding. *)
Definition objects : Heap :=
  {[ 0%nat := player (Some "u1") "Alice" 5 5 [2%nat; 3%nat] 101 false;
     1%nat := player (Some "u1") "Alice" 5 5 [] 0 false;
     2%nat := player (Some "u2") "Bob" 5 5 [] 0 false;
     3%nat := player (Some "u3") "Carol" 9 5 [] 0 false;
     4%nat := player (Some "u4") "Dave" 2 2 [5%nat] 7 false;
     5%nat := player None "Guard" 2 2 [] 0 false;
     6%nat := player (Some "u5") "Erin" 3 3 [] 0 true ]}.

Definition fresh_game : Game := new_CharacterManager objects.

Definition sock (n : nat) (uid : string) : Socket :=
  {| socket_id := n; socket_user := Some (Some uid) |}.

(** Alice, Bob, Carol, Dave and Erin online, each on their own socket. *)
Definition town : Game :=
  @run world [ do_manage false (Some (sock 1 "u1")) true 0%nat;
               do_manage false (Some (sock 2 "u2")) true 2%nat;
               do_manage false (Some (sock 3 "u3")) true 3%nat;
               do_manage false (Some (sock 4 "u4")) true 4%nat;
               do_manage false (Some (sock 5 "u5")) true 6%nat ] fresh_game.

(** Alice alone online; then a second character of her user managed
    without a cleared disconnect timer, or with one. *)
Definition alice_online : Game :=
  @run world [do_manage false (Some (sock 1 "u1")) true 0%nat] fresh_game.

Definition second_tab : Game :=
  state_of (@manage world false (Some (sock 7 "u1")) true 1%nat alice_online).


Definition east : MoveAction := {| grid := "x"; direction := 1 |}.

(** Bob walks east; Carol, at the eastern edge, tries to. *)
Definition bob_moved : Game := state_of (@move world (sock 2 "u2") east town).

Definition carol_blocked : Game := state_of (@move world (sock 3 "u3") east town).

(** Bob kills Alice; the guard kills Dave. *)
Definition alice_killed : Game := state_of (@kill world (Some "u1") 2%nat town).

Definition dave_killed : Game := state_of (@kill world (Some "u4") 5%nat town).

(** The same town with an index that lists Bob in his cell (set by hand:
    no method of the manager initialises the index). *)
Definition indexed : Game :=
  set_locations (Some {[ "city_5_5" := [2%nat] ]}) town.

End Demo.

(** * Further methods of the source files *)

(** ** class [CharacterManager]: batch saving, listings, ranks *)

(** [saveAll()]: every managed character is saved, each in its own
    [try]/[catch]; [db_ok] tells, for the call made for each entry of the
    array, whether persistent storage accepts the write.  The saves run
    concurrently; the model runs them in the order of the array, so the
    relative order of the calls recorded for different characters carries
    no meaning. *)
Definition saveAll (db_ok : Ref → bool) : M unit :=
  managed ← read characters;
  forEach managed (λ character,
    uid ← read (λ g, user_id (deref g character));
    try_catch (save (db_ok character) uid) (λ err, update (emit (onError err)))).



(** An entry of [data/levels.json]. *)
Record Level := {
  lv_name : string;
  lv_exp : Z;
}.

(** The [for] loop of [getRank], over the indices still to visit. *)
Fixpoint getRank_loop (Levels : list Level) (exp : Z) (indices : list nat)
    : Outcome (option string) :=
  match indices with
  | [] => Return None
  | i :: rest =>
      match Levels !! i with
      | None => Throw (TypeError "Cannot read property 'exp' of undefined")
      | Some level =>
          if lv_exp level >? exp then
            match i with
            | O => Throw (TypeError "Cannot read property 'name' of undefined")
            | S j =>
                match Levels !! j with
                | Some previous => Return (Some (lv_name previous))
                | None => Throw (TypeError "Cannot read property 'name' of undefined")
                end
            end
          else getRank_loop Levels exp rest
      end
  end.

(** [getRank(exp)]; the table [Levels] is imported from
    [data/levels.json].  The result is the rank name, or nothing when
    [rank] stays undefined. *)
Definition getRank (Levels : list Level) (exp : Z) : Outcome (option string) :=
  let levelCount := (length Levels - 1)%nat in
  getRank_loop Levels exp (seq 0 levelCount).

(** ** class [CharacterManager]: inbound actions *)

(** The methods [equip] and [unEquip] of [Character] belong to a file that
    is not part of the sources: they are parameters, free to change the
    state and to throw. *)
Class Equipment := {
  equip : Ref → string → M unit;
  unEquip : Ref → string → M unit;
}.

(** The actions that [onDispatch] tells apart by their [type], with their
    payload. *)
Inductive Inbound :=
| UNEQUIP_ITEM (payload : string)
| EQUIP_ITEM (payload : string)
| MOVE_CHARACTER (payload : MoveAction)
| OTHER_ACTION (type : string).

(** [get(socket.user.user_id)] followed by a method call on the result:
    both reads can fail. *)
Definition with_character (socket : Socket) (method : Ref → M unit) : M unit :=
  match socket_user socket with
  | None => throw (TypeError "Cannot read property 'user_id' of undefined")
  | Some uid =>
      character ← read (λ g, get g uid);
      match character with
      | None => throw (TypeError "Cannot read property of null")
      | Some c => method c
      end
  end.

Definition onUnEquip `{Equipment} (socket : Socket) (payload : string) : M unit :=
  try_catch (with_character socket (λ c, unEquip c payload))
            (λ err, update (emit (onError err))).

Definition onEquip `{Equipment} (socket : Socket) (payload : string) : M unit :=
  try_catch (with_character socket (λ c, equip c payload))
            (λ err, update (emit (onError err))).

Definition onDispatch `{Collaborators} `{Equipment} (socket : Socket) (action : Inbound)
    : M unit :=
  match action with
  | UNEQUIP_ITEM payload => onUnEquip socket payload
  | EQUIP_ITEM payload => onEquip socket payload
  | MOVE_CHARACTER payload => move socket payload
  | OTHER_ACTION _ => mret tt
  end.

(** ** The client application ([App]) *)

(** The payload of a message from the server, as [onDispatch] of the
    client reads it. *)
Record ServerPayload := {
  sp_ignore : option (list UserId);
  sp_routeTo : option string;
}.

(** The message: its payload may be missing. *)
Record ServerData := {
  sd_type : string;
  sd_payload : option ServerPayload;
}.

(** What the client has done so far: the actions handed to the store and
    the routes pushed to the history (oldest first). *)
Record Client := {
  cl_character : option UserId;
  cl_dispatched : list ServerData;
  cl_history : list string;
}.

(** Truthiness of a string. *)
Definition nonempty (s : string) : bool := negb (String.eqb s "").

(** [ignore.includes(user_id)]. *)
Definition includes (l : list UserId) (u : UserId) : bool := bool_decide (u ∈ l).

(** [App.onDispatch(data)]: the outcome and the client afterwards. *)
Definition client_onDispatch (data : ServerData) (cl : Client) : Outcome unit * Client :=
  let ignored :=
    match sd_payload data with
    | Some pl =>
        match sp_ignore pl with
        | Some ignore =>
            match cl_character cl with
            | Some user => includes ignore user
            | None => false
            end
        | None => false
        end
    | None => false
    end in
  if ignored then (Return tt, cl)
  else
    let cl := {| cl_character := cl_character cl;
                 cl_dispatched := cl_dispatched cl ++ [data];
                 cl_history := cl_history cl |} in
    match sd_payload data with
    | None => (Throw (TypeError "Cannot read property 'routeTo' of undefined"), cl)
    | Some pl =>
        match sp_routeTo pl with
        | Some route =>
            if nonempty route then
              (Return tt, {| cl_character := cl_character cl;
                             cl_dispatched := cl_dispatched cl;
                             cl_history := cl_history cl ++ [route] |})
            else (Return tt, cl)
        | None => (Return tt, cl)
        end
    end.

(** The line feed. *)
Definition LF : Ascii.ascii := Ascii.ascii_of_nat 10.

(** The string without its first [n] characters: [str.slice(n)]. *)
Fixpoint slice_from (n : nat) (s : string) : string :=
  match n, s with
  | O, _ => s
  | S n', String _ rest => slice_from n' rest
  | S _, EmptyString => EmptyString
  end.

(** The regular expression [/\n(\.{3}|-{3})/] matches at the head of [s]. *)
Definition separator_here (s : string) : bool :=
  match s with
  | String c rest => Ascii.eqb c LF && (String.prefix "..." rest || String.prefix "---" rest)
  | EmptyString => false
  end.

(** [matcher.exec(str)]: the text before the first match and the text from
    [matcher.lastIndex] on. *)
Fixpoint exec_separator (s : string) : option (string * string) :=
  if separator_here s then Some (EmptyString, slice_from 4 s)
  else
    match s with
    | EmptyString => None
    | String c rest =>
        match exec_separator rest with
        | Some (before, after) => Some (String c before, after)
        | None => None
        end
    end.

(** What [parsePageMeta] returns: [undefined], [null], or the two parts. *)
Inductive PageMeta :=
| meta_undefined
| meta_null
| meta_split (meta markdown : string).

Definition parsePageMeta (str : string) : PageMeta :=
  if negb (String.prefix "---" str) then meta_undefined
  else
    match exec_separator str with
    | Some (meta, markdown) => meta_split meta markdown
    | None => meta_null
    end.

(** ** Observations on the further methods *)

(** What one call of [save(user_id)], wrapped in its [try]/[catch], hands
    to the collaborators. *)
Definition save_record (g : Game) (db_ok : bool) (uid : UserId) : list Effect :=
  if negb (truthy uid) then [onError (Error "No user_id supplied to the save() method")]
  else
    match get g uid with
    | None => [onError (Error "No user found online, matching the user_id")]
    | Some c =>
        if db_ok then [dbSave c; saveInventory c]
        else [onError (Error "storage unavailable")]
    end.

(** The state after a series of calls on the collaborators. *)
Definition emit_all (l : list Effect) (g : Game) : Game :=
  {| heap := heap g; characters := characters g; locations := locations g;
     cooldowns := cooldowns g; outbox := outbox g ++ l |}.




(** The separator of the page header starts at offset [n] of [str]. *)
Definition separator_at (n : nat) (str : string) : Prop :=
  separator_here (slice_from n str) = true.

(** The client drops the message [data]. *)
Definition dropped (data : ServerData) (cl : Client) : Prop :=
  ∃ pl ignore user, sd_payload data = Some pl ∧ sp_ignore pl = Some ignore
                    ∧ cl_character cl = Some user ∧ user ∈ ignore.

(** ** Further examples *)

Module Sample.

Definition levels : list Level :=
  [ {| lv_name := "Nobody"; lv_exp := 0 |};
    {| lv_name := "Thug"; lv_exp := 100 |};
    {| lv_name := "Dealer"; lv_exp := 500 |};
    {| lv_name := "Boss"; lv_exp := 2000 |} ].

(** An inventory in which only the slot [weapon-melee] can be equipped. *)
Definition gear : Equipment := {|
  equip := λ c slot,
    if String.eqb slot "weapon-melee" then mret tt
    else throw (Error "Invalid item");
  unEquip := λ c slot, mret tt;
|}.


Definition page : string :=
  "---" +:+ String LF "title: Home" +:+ String LF "---" +:+ String LF "Welcome".

(** The town with Bob on a map that the map manager does not know. *)
Definition suburb : Game :=
  set_heap (modify 2%nat (set_location {| loc_map := "suburb"; loc_x := 0; loc_y := 0 |}))
    Demo.town.


(** A socket that has not authenticated. *)
Definition stranger : Socket := {| socket_id := 9; socket_user := None |}.

(** A message without payload. *)
Definition ping : ServerData := {| sd_type := "PING"; sd_payload := None |}.

Definition viewer (uid : string) : Client :=
  {| cl_character := Some (Some uid); cl_dispatched := []; cl_history := [] |}.

Definition room_event (excluded : list UserId) : ServerData :=
  {| sd_type := "NEW_EVENT";
     sd_payload := Some {| sp_ignore := Some excluded; sp_routeTo := None |} |}.

End Sample.

(** * Proofs *)

(** ** Tactics *)

(** Unfolding of the combinators of the monad. *)
Ltac unfold_monad :=
  unfold mbind, M_bind, mret, M_ret, bind, ret, read, update, throw, try_catch,
    state_of, outcome_of in *.

(** Projections of updated states. *)
Ltac step_state :=
  unfold deref in *;
  cbn [fst snd heap characters locations cooldowns outbox
       emit set_heap set_characters set_locations set_cooldowns] in *.

(** ** The model at work *)

Example room_identifier :
  location_key {| loc_map := "city"; loc_x := 6; loc_y := 5 |} = "city_5_6".
Proof. reflexivity. Qed.

Example move_along_the_map_key :
  intended_location {| loc_map := "city"; loc_x := 5; loc_y := 5 |}
    {| grid := "map"; direction := 1 |}
  = {| loc_map := "city1"; loc_x := 5; loc_y := 5 |}.
Proof. reflexivity. Qed.


Example first_session_is_found : get Demo.second_tab (Some "u1") = Some 0%nat.
Proof. vm_compute. reflexivity. Qed.

Example bob_walks_east :
  location (deref Demo.bob_moved 2%nat) = {| loc_map := "city"; loc_x := 6; loc_y := 5 |}
  ∧ cooldownManager.ticksLeft Demo.bob_moved 2%nat "move" = 5%nat.
Proof. split; vm_compute; reflexivity. Qed.

Example second_move_inside_the_cooldown :
  location (deref (state_of (@move Demo.world (Demo.sock 2 "u2") Demo.east Demo.bob_moved))
              2%nat)
  = {| loc_map := "city"; loc_x := 6; loc_y := 5 |}.
Proof. vm_compute. reflexivity. Qed.

Example carol_stays :
  location (deref Demo.carol_blocked 3%nat) = {| loc_map := "city"; loc_x := 9; loc_y := 5 |}.
Proof. vm_compute. reflexivity. Qed.

Example alice_respawns :
  location (deref Demo.alice_killed 0%nat) = {| loc_map := "city"; loc_x := 1; loc_y := 1 |}
  ∧ experience (deref Demo.alice_killed 2%nat) = 20
  ∧ experience (deref Demo.alice_killed 3%nat) = 20.
Proof. repeat split; vm_compute; reflexivity. Qed.

Example guard_is_paid_without_experience :
  money (deref Demo.dave_killed 5%nat) = 7
  ∧ experience (deref Demo.dave_killed 5%nat) = 0
  ∧ List.length (outbox Demo.dave_killed) = (List.length (outbox Demo.town) + 7)%nat.
Proof. repeat split; vm_compute; reflexivity. Qed.

Example index_once_initialised :
  cell_at (state_of (addToGrid {| loc_map := "city"; loc_x := 5; loc_y := 5 |} 3%nat
                       Demo.indexed))
          {| loc_map := "city"; loc_x := 5; loc_y := 5 |}
  = Some [2; 3]%nat.
Proof. vm_compute. reflexivity. Qed.

(** ** States, strings and the object store *)

Lemma game_ext (g1 g2 : Game) :
  heap g1 = heap g2 → characters g1 = characters g2 → locations g1 = locations g2 →
  cooldowns g1 = cooldowns g2 → outbox g1 = outbox g2 → g1 = g2.
Proof. destruct g1, g2. simpl. by intros -> -> -> -> ->. Qed.

Lemma string_app_assoc (a b c : string) : (a +:+ b) +:+ c = a +:+ (b +:+ c).
Proof.
  induction a as [|ch a IH]; [done|].
  change (String ch ((a +:+ b) +:+ c) = String ch (a +:+ (b +:+ c))).
  by f_equal.
Qed.

Lemma string_app_empty_r (a : string) : a +:+ "" = a.
Proof.
  induction a as [|ch a IH]; [done|].
  change (String ch (a +:+ "") = String ch a). by f_equal.
Qed.

Lemma occurs_in_concat (sep s : string) (l : list string) :
  s ∈ l → occurs_in s (String.concat sep l).
Proof.
  induction l as [|a l IH]; [by intros ?%elem_of_nil|].
  intros [Heq|Hin]%elem_of_cons.
  - subst a. destruct l as [|b l].
    + exists "", "". cbn. by rewrite string_app_empty_r.
    + exists "", (sep +:+ String.concat sep (b :: l)). done.
  - destruct (IH Hin) as (before & after & Heq).
    destruct l as [|b l]; [by apply elem_of_nil in Hin|].
    exists (a +:+ sep +:+ before), after.
    change (String.concat sep (a :: b :: l)) with (a +:+ sep +:+ String.concat sep (b :: l)).
    rewrite Heq. by rewrite !string_app_assoc.
Qed.

Lemma occurs_in_app_r (s pre msg : string) :
  occurs_in s msg → occurs_in s (pre +:+ msg).
Proof.
  intros (b & a & ->). exists (pre +:+ b), a. by rewrite string_app_assoc.
Qed.

Lemma elem_of_List_filter {A} (f : A → bool) (l : list A) (x : A) :
  x ∈ List.filter f l ↔ x ∈ l ∧ f x = true.
Proof. by rewrite !list_elem_of_In, List.filter_In. Qed.


Lemma modify_lookup_eq (r : Ref) (f : Character → Character) (h : Heap) :
  modify r f h !!! r = f (h !!! r).
Proof. unfold modify. by rewrite lookup_total_insert_eq. Qed.

Lemma modify_lookup_ne (r r' : Ref) (f : Character → Character) (h : Heap) :
  r ≠ r' → modify r f h !!! r' = h !!! r'.
Proof. intros. unfold modify. by rewrite lookup_total_insert_ne. Qed.

(** A field that [f] does not write is the same in every object after
    [modify r f]. *)
Lemma modify_preserves {A} (field : Character → A) (f : Character → Character) :
  (∀ c, field (f c) = field c) →
  ∀ r r' h, field (modify r f h !!! r') = field (h !!! r').
Proof.
  intros Hf r r' h. destruct (decide (r = r')) as [->|Hne].
  - by rewrite modify_lookup_eq.
  - by rewrite modify_lookup_ne.
Qed.


Lemma releaseTarget_preserves {A} (field : Character → A) :
  (∀ t c, field (set_target t c) = field c) →
  (∀ t c, field (set_targetedBy t c) = field c) →
  ∀ r r' h, field (releaseTarget r h !!! r') = field (h !!! r').
Proof.
  intros H1 H2 r r' h. unfold releaseTarget.
  destruct (target (h !!! r)); [|done].
  rewrite (modify_preserves field); [|by intros; apply H1].
  rewrite (modify_preserves field); [done|by intros; apply H2].
Qed.

Lemma moved_location (c : Ref) (l : Location) (h : Heap) :
  location (moved c l h !!! c) = l.
Proof. unfold moved, updateLocation. rewrite modify_lookup_eq. by destruct l. Qed.

Lemma moved_user_id (c r : Ref) (l : Location) (h : Heap) :
  user_id (moved c l h !!! r) = user_id (h !!! r).
Proof.
  unfold moved, updateLocation. rewrite (modify_preserves user_id); [|done].
  by apply (releaseTarget_preserves user_id).
Qed.

Lemma moved_name (c r : Ref) (l : Location) (h : Heap) :
  name (moved c l h !!! r) = name (h !!! r).
Proof.
  unfold moved, updateLocation. rewrite (modify_preserves name); [|done].
  by apply (releaseTarget_preserves name).
Qed.







Lemma foldl_emit {A} (E : A → Effect) (l : list A) (g : Game) :
  foldl (λ g a, emit (E a) g) g l
  = {| heap := heap g; characters := characters g; locations := locations g;
       cooldowns := cooldowns g; outbox := outbox g ++ List.map E l |}.
Proof.
  revert g. induction l as [|a l IH]; intros g.
  - simpl. rewrite app_nil_r. by destruct g.
  - simpl. rewrite IH. simpl. by rewrite <- app_assoc.
Qed.

(** ** Lookups in the registry *)

(** [get] only looks at the registry and at the user ids. *)
Lemma get_ext (g g' : Game) (uid : UserId) :
  characters g' = characters g →
  (∀ r, user_id (deref g' r) = user_id (deref g r)) →
  get g' uid = get g uid.
Proof.
  intros Hc Hu. unfold get. destruct (negb (truthy uid)); [done|].
  rewrite Hc. clear Hc. induction (characters g) as [|r l IH]; [done|].
  simpl. rewrite IH. unfold same_user. by rewrite Hu.
Qed.

Lemma get_Some_user_id (g : Game) (uid : UserId) (c : Ref) :
  get g uid = Some c → user_id (deref g c) = uid ∧ c ∈ characters g ∧ truthy uid = true.
Proof.
  unfold get. destruct (truthy uid); [|done]. simpl.
  intros Hf. apply List.find_some in Hf as [Hin Hs].
  unfold same_user in Hs. apply bool_decide_eq_true in Hs.
  split; [done|]. split; [|done]. by apply list_elem_of_In.
Qed.




Lemma ids_of_ext (g g' : Game) (l : list Ref) :
  (∀ r, r ∈ l → user_id (deref g' r) = user_id (deref g r)) →
  ids_of g' l = ids_of g l.
Proof.
  intros Hu. unfold ids_of. apply List.map_ext_in. intros r Hr.
  apply Hu. by apply list_elem_of_In.
Qed.








Lemma getLocationList_spec (g : Game) (m : string) (px py : Z) (r : Ref) :
  r ∈ getLocationList g m (Some px) (Some py)
  ↔ r ∈ characters g ∧ location (deref g r) = {| loc_map := m; loc_x := px; loc_y := py |}.
Proof.
  unfold getLocationList. rewrite elem_of_List_filter.
  rewrite !andb_true_iff, String.eqb_eq, !Z.eqb_eq.
  destruct (location (deref g r)) as [m' x' y']; simpl.
  split; [intros (? & (-> & ->) & ->)|intros (? & [= -> -> ->])]; done.
Qed.

(** ** Components that a method leaves alone *)

Section Keeps.
Context {B : Type} (field : Game → B).

Lemma keeps_mret {A} (a : A) : keeps field (mret a).
Proof. by intros g. Qed.

Lemma keeps_throw {A} (e : Exn) : keeps field (@throw A e).
Proof. by intros g. Qed.

Lemma keeps_read {A} (f : Game → A) : keeps field (read f).
Proof. by intros g. Qed.

Lemma keeps_update (f : Game → Game) :
  (∀ g, field (f g) = field g) → keeps field (update f).
Proof. intros Hf g. apply Hf. Qed.

Lemma keeps_bind {A C} (m : M A) (k : A → M C) :
  keeps field m → (∀ a, keeps field (k a)) → keeps field (m ≫= k).
Proof.
  intros Hm Hk g. unfold_monad. specialize (Hm g).
  destruct (m g) as [[a|e] g']; simpl in *; [|done].
  by rewrite Hk.
Qed.

Lemma keeps_try_catch {A} (m : M A) (handler : Exn → M A) :
  keeps field m → (∀ e, keeps field (handler e)) → keeps field (try_catch m handler).
Proof.
  intros Hm Hk g. unfold_monad. specialize (Hm g).
  destruct (m g) as [[a|e] g']; simpl in *; [done|].
  by rewrite Hk.
Qed.

Lemma keeps_forEach {A} (l : list A) (body : A → M unit) :
  (∀ a, keeps field (body a)) → keeps field (forEach l body).
Proof.
  intros Hb. induction l as [|a l IH]; [by intros g|].
  simpl. apply keeps_bind; [apply Hb | by intros _].
Qed.

End Keeps.

(** One step of a proof that a method keeps a component: follow the
    structure of the method. *)
Ltac keeps_step :=
  lazymatch goal with
  | |- keeps _ (mbind _ _) => apply keeps_bind; [|intros ?]
  | |- keeps _ (mret _) => apply keeps_mret
  | |- keeps _ (throw _) => apply keeps_throw
  | |- keeps _ (read _) => apply keeps_read
  | |- keeps _ (update _) => apply keeps_update; intros ?; reflexivity
  | |- keeps _ (try_catch _ _) => apply keeps_try_catch; [|intros ?]
  | |- keeps _ (forEach _ _) => apply keeps_forEach; intros ?
  | |- keeps _ (match ?x with _ => _ end) => destruct x
  end.

Section KeepsLocations.
Context `{Collaborators}.

Lemma updateClient_keeps {B} (field : Game → B) (uid : UserId) :
  (∀ e g, field (emit e g) = field g) → keeps field (updateClient uid).
Proof. intros He. unfold updateClient. repeat keeps_step. apply keeps_update, He. Qed.

Lemma remove_keeps_locations (ok : bool) (uid : UserId) :
  keeps locations (remove ok uid).
Proof.
  unfold remove, save, eventToRoom, dispatchRemoveFromPlayerList.
  repeat keeps_step.
Qed.

Lemma manage_keeps_locations (w : bool) (s : option Socket) (ok : bool) (c : Ref) :
  keeps locations (manage w s ok c).
Proof.
  unfold manage, dispatchUpdatePlayerList, eventToRoom.
  repeat keeps_step; apply remove_keeps_locations.
Qed.

Lemma load_keeps_locations (record : option Character) (w : bool) (s : option Socket)
    (ok : bool) :
  keeps locations (load record w s ok).
Proof.
  unfold load. repeat keeps_step. apply manage_keeps_locations.
Qed.

Lemma move_keeps_locations (s : Socket) (a : MoveAction) :
  keeps locations (move s a).
Proof.
  unfold move, eventToSocket, eventToRoom, cooldownManager.add, cooldownManager.start.
  repeat keeps_step; by apply updateClient_keeps.
Qed.

Lemma kill_keeps_locations (uid : UserId) (killer : Ref) :
  keeps locations (kill uid killer).
Proof.
  unfold kill, eventToUser.
  repeat keeps_step; try (by apply updateClient_keeps).
  - intros g. unfold character_die. by destruct (die _ _).
  - unfold reward. repeat keeps_step. by apply updateClient_keeps.
Qed.

Lemma step_keeps_locations (g : Game) (rq : Request) :
  locations (step g rq) = locations g.
Proof.
  destruct rq; simpl.
  - apply load_keeps_locations.
  - apply manage_keeps_locations.
  - apply remove_keeps_locations.
  - apply move_keeps_locations.
  - apply kill_keeps_locations.
Qed.

Lemma run_keeps_locations (rqs : list Request) (g : Game) :
  locations (run rqs g) = locations g.
Proof.
  revert g. induction rqs as [|rq rqs IH]; intros g; [done|].
  unfold run in *. simpl. rewrite IH. apply step_keeps_locations.
Qed.

End KeepsLocations.

(** ** Rules of the weakest precondition *)

Lemma wp_bind {A B} (m : M A) (k : A → M B) Q g :
  wp m (λ o g', match o with
                | Return a => wp (k a) Q g'
                | Throw e => Q (Throw e) g'
                end) g →
  wp (m ≫= k) Q g.
Proof. unfold wp. unfold_monad. by destruct (m g) as [[a|e] g']. Qed.

Lemma wp_mret {A} (a : A) Q g : Q (Return a) g → wp (mret a) Q g.
Proof. done. Qed.

Lemma wp_throw {A} (e : Exn) Q g : Q (Throw e) g → wp (@throw A e) Q g.
Proof. done. Qed.

Lemma wp_read {A} (f : Game → A) Q g : Q (Return (f g)) g → wp (read f) Q g.
Proof. done. Qed.

Lemma wp_update (f : Game → Game) Q g : Q (Return tt) (f g) → wp (update f) Q g.
Proof. done. Qed.

Lemma wp_try_catch {A} (m : M A) (handler : Exn → M A) Q g :
  wp m (λ o g', match o with
                | Return a => Q (Return a) g'
                | Throw e => wp (handler e) Q g'
                end) g →
  wp (try_catch m handler) Q g.
Proof. unfold wp. unfold_monad. by destruct (m g) as [[a|e] g']. Qed.

Lemma wp_use {A} (m : M A) (Q' Q : Outcome A → Game → Prop) g :
  wp m Q' g → (∀ o g', Q' o g' → Q o g') → wp m Q g.
Proof. unfold wp. auto. Qed.

(** A loop whose body only updates the state is a fold. *)
Lemma wp_forEach_update {A} (l : list A) (F : A → Game → Game) Q g :
  Q (Return tt) (foldl (λ g a, F a g) g l) →
  wp (forEach l (λ a, update (F a))) Q g.
Proof.
  revert g. induction l as [|a l IH]; intros g HQ; [done|].
  simpl. apply wp_bind, wp_update, IH, HQ.
Qed.

(** Symbolic execution of one statement. *)
Ltac wp_step :=
  cbv beta iota;
  lazymatch goal with
  | |- wp (mbind _ _) _ _ => apply wp_bind
  | |- wp (mret _) _ _ => apply wp_mret
  | |- wp (throw _) _ _ => apply wp_throw
  | |- wp (read _) _ _ => apply wp_read
  | |- wp (update _) _ _ => apply wp_update
  | |- wp (try_catch _ _) _ _ => apply wp_try_catch
  | |- wp (eventToRoom _ _ _ _) _ _ => apply wp_update
  | |- wp (eventToSocket _ _ _) _ _ => apply wp_update
  | |- wp (eventToUser _ _ _) _ _ => apply wp_update
  | |- wp (dispatchRemoveFromPlayerList _) _ _ => apply wp_update
  end; cbv beta iota.


(** ** The grid index *)

Lemma findIndex_present (g : Game) (character : Ref) (cell : list Ref) :
  present g character cell → is_Some (findIndex g (user_id (deref g character)) cell).
Proof.
  intros (char & Hin & Huid). unfold findIndex.
  destruct (list_find_elem_of (λ c, user_id (deref g c) = user_id (deref g character))
              cell char Hin Huid) as [[i y] ->].
  by eexists.
Qed.

Lemma findIndex_Some_present (g : Game) (character : Ref) (cell : list Ref) (i : nat) :
  findIndex g (user_id (deref g character)) cell = Some i → present g character cell.
Proof.
  unfold findIndex. intros Hf.
  destruct (list_find _ cell) as [[j y]|] eqn:Hfind; [|done].
  apply list_find_Some in Hfind as (Hj & Hy & _).
  exists y. split; [|done]. by eapply list_elem_of_lookup_2.
Qed.

Lemma addToGrid_present (g : Game) (position : Location) (character : Ref) (cell : list Ref) :
  cell_at g position = Some cell →
  present g character cell →
  addToGrid position character g = (Return tt, g).
Proof.
  unfold cell_at. intros Hcell Hp.
  destruct (locations g) as [cells|] eqn:Hl; [|done]. simpl in Hcell.
  unfold addToGrid. unfold_monad. rewrite Hl, Hcell. step_state.
  rewrite Hl. simpl. rewrite Hcell. simpl.
  destruct (findIndex_present g character cell Hp) as [i Hi].
  unfold deref in Hi. by rewrite Hi.
Qed.

Lemma removeFromGrid_absent (g : Game) (position : Location) (character : Ref) :
  (∀ cell, cell_at g position = Some cell → ¬ present g character cell) →
  state_of (removeFromGrid position character g) = g.
Proof.
  unfold cell_at. intros Hab.
  unfold removeFromGrid. unfold_monad.
  destruct (locations g) as [cells|] eqn:Hl; [|done]. simpl in Hab.
  destruct (cells !! location_key position) as [cell|] eqn:Hc; [|done].
  specialize (Hab cell eq_refl).
  destruct (findIndex g _ cell) as [i|] eqn:Hf; [|done].
  exfalso. apply Hab. by eapply findIndex_Some_present.
Qed.

(** After [addToGrid] on an initialised index the character is present in
    the cell, and the objects are as before. *)
Lemma addToGrid_adds (g : Game) (position : Location) (character : Ref)
    (cells : gmap string (list Ref)) :
  locations g = Some cells →
  ∃ g' cell, addToGrid position character g = (Return tt, g')
             ∧ heap g' = heap g
             ∧ cell_at g' position = Some cell
             ∧ present g' character cell.
Proof.
  intros Hl. unfold addToGrid, cell_at. unfold_monad. rewrite Hl.
  destruct (cells !! location_key position) as [cell|] eqn:Hc; step_state.
  - rewrite Hl. simpl. rewrite Hc. simpl.
    destruct (findIndex g (user_id (heap g !!! character)) cell) as [i|] eqn:Hf.
    + eexists _, cell. split; [done|]. split; [done|].
      rewrite Hl. simpl. split; [done|]. by eapply findIndex_Some_present.
    + eexists _, (cell ++ [character]). split; [done|]. simpl.
      split; [done|]. split; [apply lookup_insert_eq|].
      exists character. split; [|done]. apply elem_of_app. right. by left.
  - replace (default [] (default ∅ (Some (<[location_key position:=[]]> cells))
                         !! location_key position)) with (@nil Ref)
      by (simpl; by rewrite lookup_insert_eq).
    simpl. eexists _, [character]. split; [done|]. simpl.
    split; [done|]. split; [apply lookup_insert_eq|].
    exists character. split; [by left|done].
Qed.

Lemma findIndex_None (g : Game) (uid : UserId) (cell : list Ref) :
  findIndex g uid cell = None ↔ ∀ char, char ∈ cell → user_id (deref g char) ≠ uid.
Proof.
  unfold findIndex. rewrite fmap_None, list_find_None, Forall_forall. done.
Qed.

Lemma findIndex_Some (g : Game) (uid : UserId) (cell : list Ref) (i : nat) :
  findIndex g uid cell = Some i → ∃ y, cell !! i = Some y ∧ user_id (deref g y) = uid.
Proof.
  unfold findIndex. intros Hf.
  destruct (list_find _ cell) as [[j y]|] eqn:Hfind; [|done].
  injection Hf as <-. apply list_find_Some in Hfind as (Hj & Hy & _). eauto.
Qed.

Lemma ids_of_elem (g : Game) (l : list Ref) (r : Ref) :
  r ∈ l → user_id (deref g r) ∈ ids_of g l.
Proof.
  intros Hr. unfold ids_of.
  apply list_elem_of_In, (List.in_map (λ r, user_id (deref g r))), list_elem_of_In, Hr.
Qed.

(** In a cell without duplicates, the entry that [splice] takes out was the
    only one with its user id. *)
Lemma delete_found_absent (g : Game) (uid : UserId) (cell : list Ref) (i : nat) :
  NoDup (ids_of g cell) → findIndex g uid cell = Some i →
  findIndex g uid (delete i cell) = None.
Proof.
  intros Hnd (y & Hy & Huid)%findIndex_Some.
  apply findIndex_None. intros char Hin Hchar.
  pose proof (delete_Permutation cell i y Hy) as Hperm.
  assert (ids_of g cell ≡ₚ user_id (deref g y) :: ids_of g (delete i cell)) as Hids.
  { unfold ids_of. apply (Permutation_map (λ r, user_id (deref g r))) in Hperm. exact Hperm. }
  rewrite Hids in Hnd. apply NoDup_cons in Hnd as [Hnin _].
  apply Hnin. rewrite Huid, <- Hchar. by apply ids_of_elem.
Qed.

Lemma removeFromGrid_cases (g : Game) (position : Location) (character : Ref) :
  state_of (removeFromGrid position character g) = g
  ∨ ∃ cells cell i,
      locations g = Some cells ∧ cells !! location_key position = Some cell
      ∧ findIndex g (user_id (deref g character)) cell = Some i
      ∧ removeFromGrid position character g
        = (Return tt,
           set_locations (Some (<[location_key position := delete i cell]> cells)) g).
Proof.
  unfold removeFromGrid. unfold_monad.
  destruct (locations g) as [cells|] eqn:Hl; [|by left].
  destruct (cells !! location_key position) as [cell|] eqn:Hc; [|by left].
  destruct (findIndex g (user_id (deref g character)) cell) as [i|] eqn:Hf; [|by left].
  right. by exists cells, cell, i.
Qed.

Lemma removeFromGrid_twice (g : Game) (position : Location) (character : Ref) :
  distinct_cells g →
  state_of (removeFromGrid position character
              (state_of (removeFromGrid position character g)))
  = state_of (removeFromGrid position character g).
Proof.
  intros Hd.
  destruct (removeFromGrid_cases g position character)
    as [Hsame|(cells & cell & i & Hl & Hc & Hf & Hrun)].
  - by rewrite Hsame.
  - rewrite Hrun. unfold state_of at 2 3. simpl.
    apply removeFromGrid_absent. unfold cell_at. simpl.
    rewrite lookup_insert_eq. intros cell' [= <-] (char & Hin & Huid).
    pose proof (delete_found_absent g _ cell i (Hd _ _ _ Hl Hc) Hf) as Hnone.
    by eapply findIndex_None.
Qed.

(** Cells filled by [addToGrid] never list a user id twice. *)
Lemma addToGrid_distinct (g : Game) (position : Location) (character : Ref) :
  distinct_cells g → distinct_cells (state_of (addToGrid position character g)).
Proof.
  intros Hd. unfold addToGrid. unfold_monad.
  destruct (locations g) as [cells|] eqn:Hl; [|done].
  assert (∀ cell, cells !! location_key position = Some cell →
          findIndex g (user_id (deref g character)) cell = None →
          NoDup (ids_of g (cell ++ [character]))) as Hnew.
  { intros cell Hc Hf. unfold ids_of. rewrite List.map_app. simpl.
    apply NoDup_app. split; [by eapply Hd|]. split; [|apply NoDup_singleton].
    intros u Hu ->%list_elem_of_singleton.
    apply list_elem_of_In, List.in_map_iff in Hu as (r & Hr & Hin%list_elem_of_In).
    by eapply findIndex_None. }
  destruct (cells !! location_key position) as [cell|] eqn:Hc; step_state.
  - rewrite Hl. simpl. rewrite Hc. simpl.
    destruct (findIndex g (user_id (heap g !!! character)) cell) as [i|] eqn:Hf; simpl.
    + exact Hd.
    + intros cells' key cell'. simpl. intros [= <-].
      destruct (decide (location_key position = key)) as [<-|Hne].
      * rewrite lookup_insert_eq. intros [= <-]. by apply Hnew.
      * rewrite lookup_insert_ne by done. by apply Hd.
  - replace (default [] (default ∅ (Some (<[location_key position:=[]]> cells))
                         !! location_key position)) with (@nil Ref)
      by (simpl; by rewrite lookup_insert_eq).
    simpl. intros cells' key cell'. simpl. intros [= <-].
    destruct (decide (location_key position = key)) as [<-|Hne].
    + rewrite lookup_insert_eq. intros [= <-].
      apply NoDup_singleton.
    + rewrite lookup_insert_ne by done. rewrite lookup_insert_ne by done. by apply Hd.
Qed.

(** ** Movement *)

Section Move.
Context `{Collaborators}.

Lemma move_no_user (socket : Socket) (a : MoveAction) (g : Game) :
  socket_user socket = None →
  ∃ what, move socket a g = (Throw (TypeError what), g).
Proof. intros Hs. unfold move. rewrite Hs. by eexists. Qed.

Lemma move_not_logged_in (socket : Socket) (uid : UserId) (a : MoveAction) (g : Game) :
  socket_user socket = Some uid →
  get g uid = None →
  move socket a g =
    (Return tt,
     emit (dispatchToSocket socket
             (NEW_EVENT "error"
                "You do not appear to be logged in any more. Please login again." None)) g).
Proof.
  intros Hs Hget. unfold move. rewrite Hs. unfold_monad. rewrite Hget. done.
Qed.

Lemma move_locked (socket : Socket) (uid : UserId) (c : Ref) (a : MoveAction) (g : Game) :
  socket_user socket = Some uid →
  get g uid = Some c →
  targetedBy (deref g c) ≠ [] →
  move socket a g =
    (Return tt,
     emit (dispatchToSocket socket (NEW_EVENT "warning" (locked_message g c) None)) g).
Proof.
  intros Hs Hget Hlock. unfold move. rewrite Hs. unfold_monad. rewrite Hget.
  unfold locked_message, deref in *.
  destruct (targetedBy (heap g !!! c)) as [|u l] eqn:Ht; [done|].
  simpl. unfold eventToSocket. by unfold_monad.
Qed.

Lemma move_hidden (socket : Socket) (uid : UserId) (c : Ref) (a : MoveAction) (g : Game) :
  socket_user socket = Some uid →
  get g uid = Some c →
  targetedBy (deref g c) = [] →
  hidden (deref g c) = true →
  move socket a g =
    (Return tt,
     emit (dispatchToSocket socket
             (NEW_EVENT "warning"
                "You can't move as long as you are hidden. type /unhide to come out of hiding."
                None)) g).
Proof.
  intros Hs Hget Hlock Hh. unfold move. rewrite Hs. unfold_monad. rewrite Hget.
  unfold deref in *. rewrite Hlock, Hh. done.
Qed.

Lemma move_cooldown (socket : Socket) (uid : UserId) (c : Ref) (a : MoveAction) (g : Game) :
  socket_user socket = Some uid →
  get g uid = Some c →
  targetedBy (deref g c) = [] →
  hidden (deref g c) = false →
  cooldownManager.ticksLeft g c "move" ≠ 0%nat →
  move socket a g = (Return tt, g).
Proof.
  intros Hs Hget Hlock Hh Ht. unfold move. rewrite Hs. unfold_monad. rewrite Hget.
  unfold deref in *. rewrite Hlock, Hh. simpl.
  destruct (cooldownManager.ticksLeft g c "move"); done.
Qed.

Lemma move_invalid (socket : Socket) (uid : UserId) (c : Ref) (a : MoveAction) (g : Game) :
  socket_user socket = Some uid →
  get g uid = Some c →
  targetedBy (deref g c) = [] →
  hidden (deref g c) = false →
  cooldownManager.ticksLeft g c "move" = 0%nat →
  isValidLocation (loc_map (destination g c a)) (loc_x (destination g c a))
    (loc_y (destination g c a)) = None →
  move socket a g = (Return tt, set_cooldowns (cooldowns g ++ [reservation c]) g).
Proof.
  intros Hs Hget Hlock Hh Ht Hv. unfold move. rewrite Hs. unfold_monad. rewrite Hget.
  unfold destination, deref in *. rewrite Hlock, Hh. simpl. rewrite Ht. simpl.
  unfold cooldownManager.add. unfold_monad. rewrite Hv. done.
Qed.

Lemma move_success (socket : Socket) (uid : UserId) (c : Ref) (a : MoveAction)
    (newLocation : Location) (g : Game) :
  socket_user socket = Some uid →
  get g uid = Some c →
  targetedBy (deref g c) = [] →
  hidden (deref g c) = false →
  cooldownManager.ticksLeft g c "move" = 0%nat →
  isValidLocation (loc_map (destination g c a)) (loc_x (destination g c a))
    (loc_y (destination g c a)) = Some newLocation →
  move socket a g =
    (Return tt,
     {| heap := moved c newLocation (heap g);
        characters := characters g;
        locations := locations g;
        cooldowns := cooldowns g ++ [running c];
        outbox := outbox g ++
          [ socket_leave socket (getLocationId (deref g c));
            dispatchToRoom (getLocationId (deref g c))
              (NEW_EVENT "info"
                 (name (deref g c) +:+ " leaves to the " +:+ show (direction_names a).1)
                 (Some [uid]));
            dispatchToRoom (getLocationId (deref g c)) (LEFT_GRID uid);
            dispatchToRoom (location_key newLocation)
              (NEW_EVENT "info"
                 (name (deref g c) +:+ " strolls in from the " +:+ show (direction_names a).2)
                 (Some [uid]));
            dispatchToRoom (location_key newLocation) (JOINED_GRID (name (deref g c)) uid);
            socket_join socket (location_key newLocation);
            dispatchToUser uid (UPDATE_CHARACTER (moved c newLocation (heap g) !!! c));
            mapManager_updateClient uid ] |}).
Proof.
  intros Hs Hget Hlock Hh Ht Hv.
  destruct (get_Some_user_id g uid c Hget) as (Huid & Hin & Htr).
  unfold move. rewrite Hs. unfold_monad. rewrite Hget.
  unfold destination in Hv. unfold deref in *. rewrite Hlock, Hh. simpl. rewrite Ht. simpl.
  unfold cooldownManager.add. unfold_monad. rewrite Hv.
  destruct (direction_names a) as [dout din].
  unfold eventToRoom, updateClient, cooldownManager.start. unfold_monad. step_state.
  fold (moved c newLocation (heap g)).
  unfold getLocationId, joinedGrid, newEvent.
  rewrite ?moved_user_id, ?moved_name, ?moved_location.
  rewrite ?(releaseTarget_preserves user_id), ?(releaseTarget_preserves name),
    ?(releaseTarget_preserves location) by done.
  rewrite Huid.
  match goal with |- context [get ?g' uid] =>
    replace (get g' uid) with (Some c) end.
  2:{ symmetry. rewrite <- Hget. apply get_ext; [done|].
      intros r. unfold deref. step_state. apply moved_user_id. }
  step_state. f_equal. apply game_ext; step_state; try done.
  - rewrite <- (Nat.add_0_r (length (cooldowns g))) at 1.
    by rewrite alter_app_r.
  - by rewrite <- !app_assoc.
Qed.

End Move.

(** ** The registry *)

Section Registry.
Context `{Collaborators}.


(** [updateClient] sends at most one message and changes nothing else. *)
Lemma updateClient_spec (uid : UserId) (g : Game) Q :
  (∀ l, Q (Return tt) {| heap := heap g; characters := characters g;
                         locations := locations g; cooldowns := cooldowns g;
                         outbox := outbox g ++ l |}) →
  wp (updateClient uid) Q g.
Proof.
  intros HQ. unfold updateClient. do 2 wp_step.
  destruct (get g uid); repeat wp_step.
  - apply (HQ [_]).
  - specialize (HQ []). rewrite app_nil_r in HQ. by destruct g.
Qed.







End Registry.

(** ** Death and the split of the loot *)

Lemma reward_heap_preserves {A} (field : Character → A) (cr er : Z) :
  (∀ m c, field (set_money m c) = field c) →
  (∀ e c, field (set_experience e c) = field c) →
  ∀ h char r, field (reward_heap cr er h char !!! r) = field (h !!! r).
Proof.
  intros H1 H2 h char r. unfold reward_heap, updateExp, updateCash.
  destruct (truthy _); by rewrite ?(modify_preserves field) by done.
Qed.

Lemma rewards_preserve {A} (field : Character → A) (cr er : Z) :
  (∀ m c, field (set_money m c) = field c) →
  (∀ e c, field (set_experience e c) = field c) →
  ∀ l h r, field (foldl (reward_heap cr er) h l !!! r) = field (h !!! r).
Proof.
  intros H1 H2 l. induction l as [|a l IH]; intros h r; [done|].
  simpl. by rewrite IH, (reward_heap_preserves field).
Qed.








Section Kill.
Context `{Collaborators}.

Lemma wp_character_die (c : Ref) (loot : Loot) (h1 : Heap) Q g :
  die c (heap g) = (loot, h1) →
  Q (Return loot) (set_heap (λ _, h1) g) →
  wp (character_die c) Q g.
Proof. intros Hd HQ. unfold wp, character_die. by rewrite Hd. Qed.

Lemma reward_spec (cr er : Z) (char : Ref) (g : Game) Q :
  (∀ g', extends g (reward_heap cr er (heap g) char) g' → Q (Return tt) g') →
  wp (reward cr er char) Q g.
Proof.
  intros HQ. unfold reward. do 4 wp_step. step_state.
  fold (updateCash char cr (heap g)).
  destruct (truthy _) eqn:Ht.
  - do 2 wp_step. apply updateClient_spec. intros l. apply HQ.
    unfold extends, reward_heap. rewrite Ht. simpl. eauto 10.
  - wp_step. apply HQ. unfold extends, reward_heap. rewrite Ht. simpl.
    repeat split; try done. exists []. by rewrite app_nil_r.
Qed.

Lemma rewards_spec (cr er : Z) (l : list Ref) (g : Game) Q :
  (∀ g', extends g (foldl (reward_heap cr er) (heap g) l) g' → Q (Return tt) g') →
  wp (forEach l (reward cr er)) Q g.
Proof.
  revert g Q. induction l as [|a l IH]; intros g Q HQ.
  - apply HQ. unfold extends. repeat split; try done. exists []. by rewrite app_nil_r.
  - simpl. apply wp_bind, reward_spec. intros g1 (Hh & Hc & Hl & Hcd & l1 & Ho).
    apply IH. intros g2 (Hh2 & Hc2 & Hl2 & Hcd2 & l2 & Ho2). apply HQ.
    unfold extends. rewrite Hh2, Hh, Hc2, Hc, Hl2, Hl, Hcd2, Hcd, Ho2, Ho.
    repeat split; try done. exists (l1 ++ l2). by rewrite app_assoc.
Qed.

Lemma kill_spec (uid : UserId) (killer c : Ref) (gm : GameMap) (loot : Loot)
    (h1 : Heap) (g : Game) :
  get g uid = Some c →
  mapManager_get (loc_map (location (deref g c))) = Some gm →
  die c (heap g) = (loot, h1) →
  wp (kill uid killer)
     (λ o g', o = Return (getLocationId (h1 !!! c))
              ∧ heap g' = paid_out c gm loot h1
              ∧ (truthy (user_id (h1 !!! killer)) = true →
                 dispatchToUser (user_id (h1 !!! killer))
                   (NEW_EVENT "info" (found_money loot (name (h1 !!! c))) None)
                 ∈ outbox g')) g.
Proof.
  intros Hget Hmap Hdie. unfold kill, eventToUser. do 2 wp_step. rewrite Hget.
  do 3 wp_step. eapply wp_character_die; [exact Hdie|].
  do 2 wp_step. cbv zeta. rewrite Hmap.
  do 7 wp_step. apply wp_forEach_update. wp_step.
  apply rewards_spec. intros g3 (Hh & Hc & Hl & Hcd & evs & Ho).
  rewrite foldl_emit in Hh. step_state.
  fold (paid_out c gm loot h1) in Hh.
  assert (∀ r, user_id (heap g3 !!! r) = user_id (h1 !!! r)) as Hid.
  { intros r. rewrite Hh. unfold paid_out.
    rewrite (rewards_preserve user_id) by done.
    unfold updateLocation. by rewrite (modify_preserves user_id). }
  assert (∀ r, name (heap g3 !!! r) = name (h1 !!! r)) as Hname.
  { intros r. rewrite Hh. unfold paid_out.
    rewrite (rewards_preserve name) by done.
    unfold updateLocation. by rewrite (modify_preserves name). }
  do 2 wp_step. step_state. rewrite Hid.
  destruct (truthy (user_id (h1 !!! killer))) eqn:Hk.
  - repeat wp_step. apply updateClient_spec. intros l. repeat wp_step.
    step_state. rewrite Hname. split; [done|]. split; [done|]. intros _.
    unfold found_money, newEvent. set_solver.
  - repeat wp_step. apply updateClient_spec. intros l. repeat wp_step.
    step_state. done.
Qed.

End Kill.

(** * The claims *)

(** C9: the constructor of [CharacterManager] sets [characters] to the
    empty list and leaves [locations] undefined; therefore, for every
    position and every character, [addToGrid] and [removeFromGrid] on a
    fresh manager throw a [TypeError] (a property of the undefined
    [this.locations] is read) and no membership operation is performed:
    the manager is as it was. *)
Theorem fresh_manager_grid_throws (objects : Heap) (position : Location) (character : Ref) :
  characters (new_CharacterManager objects) = []
  ∧ locations (new_CharacterManager objects) = None
  ∧ (∃ what, addToGrid position character (new_CharacterManager objects)
             = (Throw (TypeError what), new_CharacterManager objects))
  ∧ (∃ what, removeFromGrid position character (new_CharacterManager objects)
             = (Throw (TypeError what), new_CharacterManager objects)).
Proof.
  split; [done|]. split; [done|]. split; eexists; reflexivity.
Qed.

(** The index stays undefined whatever the registry does afterwards, so
    the grid operations keep throwing. *)
Corollary grid_never_initialised `{Collaborators} (rqs : list Request) (objects : Heap)
    (position : Location) (character : Ref) :
  ∃ what, addToGrid position character (run rqs (new_CharacterManager objects))
          = (Throw (TypeError what), run rqs (new_CharacterManager objects)).
Proof.
  unfold addToGrid. unfold_monad. rewrite run_keeps_locations. by eexists.
Qed.

(** C10: [kill(user_id, killer)] needs a character registered online for
    [user_id]: when [get(user_id)] finds none, [kill] throws a [TypeError]
    (it reads [location] of [null]) and the state is exactly the state it
    was called in. *)
Theorem kill_requires_online_character `{Collaborators}
    (uid : UserId) (killer : Ref) (g : Game) :
  get g uid = None →
  ∃ what, kill uid killer g = (Throw (TypeError what), g).
Proof.
  intros Hget. unfold kill. unfold_monad. rewrite Hget. by eexists.
Qed.

Lemma kill_requires_online_character_witness :
  get Demo.town (Some "nobody") = None
  ∧ ∃ what, @kill Demo.world (Some "nobody") 2%nat Demo.town
            = (Throw (TypeError what), Demo.town).
Proof.
  assert (get Demo.town (Some "nobody") = None) as Hget by (vm_compute; reflexivity).
  split; [exact Hget|].
  exact (@kill_requires_online_character Demo.world (Some "nobody") 2%nat Demo.town Hget).
Defined.

(** C8: [addToGrid] and [removeFromGrid] are idempotent membership
    operations on the cell keyed by map, y and x, membership being tested
    by user id: adding a character that is already present in the cell
    returns normally and leaves the whole state unchanged; removing a
    character that is absent from the cell, or whose cell does not exist,
    leaves the state unchanged; adding twice is the same as adding once;
    and on an index whose cells list no user id twice (as every cell that
    [addToGrid] fills), removing twice is the same as removing once. *)
Theorem grid_membership_idempotent (g : Game) (position : Location) (character : Ref) :
  (∀ cell, cell_at g position = Some cell → present g character cell →
           addToGrid position character g = (Return tt, g))
  ∧ ((∀ cell, cell_at g position = Some cell → ¬ present g character cell) →
     state_of (removeFromGrid position character g) = g)
  ∧ state_of (addToGrid position character (state_of (addToGrid position character g)))
    = state_of (addToGrid position character g)
  ∧ (distinct_cells g →
     distinct_cells (state_of (addToGrid position character g))
     ∧ state_of (removeFromGrid position character
                   (state_of (removeFromGrid position character g)))
       = state_of (removeFromGrid position character g)).
Proof.
  split; [|split; [|split]].
  - intros cell. apply addToGrid_present.
  - apply removeFromGrid_absent.
  - destruct (locations g) as [cells|] eqn:Hl.
    + destruct (addToGrid_adds g position character cells Hl)
        as (g' & cell & Hrun & Hheap & Hcell & Hp).
      rewrite Hrun. unfold state_of. simpl.
      by rewrite (addToGrid_present g' position character cell Hcell Hp).
    + unfold addToGrid, state_of. unfold_monad. rewrite Hl. simpl. by rewrite Hl.
  - intros Hd. split; [by apply addToGrid_distinct|by apply removeFromGrid_twice].
Qed.

Lemma grid_membership_idempotent_witness :
  addToGrid {| loc_map := "city"; loc_x := 5; loc_y := 5 |} 2%nat Demo.indexed
  = (Return tt, Demo.indexed)
  ∧ state_of (removeFromGrid {| loc_map := "city"; loc_x := 5; loc_y := 5 |} 3%nat Demo.indexed)
    = Demo.indexed
  ∧ state_of (removeFromGrid {| loc_map := "city"; loc_x := 5; loc_y := 5 |} 2%nat
                (state_of (removeFromGrid {| loc_map := "city"; loc_x := 5; loc_y := 5 |}
                             2%nat Demo.indexed)))
    = state_of (removeFromGrid {| loc_map := "city"; loc_x := 5; loc_y := 5 |}
                  2%nat Demo.indexed).
Proof.
  destruct (grid_membership_idempotent Demo.indexed
              {| loc_map := "city"; loc_x := 5; loc_y := 5 |} 2%nat)
    as (Hadd & _ & _ & Htwice).
  destruct (grid_membership_idempotent Demo.indexed
              {| loc_map := "city"; loc_x := 5; loc_y := 5 |} 3%nat) as (_ & Hremove & _).
  split; [|split].
  - apply (Hadd [2%nat]); [vm_compute; reflexivity|].
    exists 2%nat. split; [by left|reflexivity].
  - apply Hremove. intros cell Hcell (char & Hin & Huid).
    assert (cell = [2%nat]) as -> by (vm_compute in Hcell; congruence).
    apply list_elem_of_singleton in Hin as ->. vm_compute in Huid. discriminate.
  - apply Htwice. intros cells key cell Hl Hc.
    unfold Demo.indexed in Hl. cbn [locations set_locations] in Hl.
    injection Hl as <-. apply lookup_singleton_Some in Hc as [_ <-].
    apply NoDup_singleton.
Defined.

(** C5: when the character of the requesting socket is registered and its
    [targetedBy] list is not empty, [move] changes nothing but the outbox:
    it sends one warning to the requesting socket, the location of the
    character stays as it is, and the message names every player that
    aims at the character. *)
Theorem locked_character_cannot_move `{Collaborators}
    (socket : Socket) (uid : UserId) (c : Ref) (a : MoveAction) (g : Game) :
  socket_user socket = Some uid →
  get g uid = Some c →
  targetedBy (deref g c) ≠ [] →
  move socket a g
  = (Return tt,
     emit (dispatchToSocket socket (NEW_EVENT "warning" (locked_message g c) None)) g)
  ∧ location (deref (state_of (move socket a g)) c) = location (deref g c)
  ∧ ∀ p, p ∈ targetedBy (deref g c) → occurs_in (name (deref g p)) (locked_message g c).
Proof.
  intros Hs Hget Hlock.
  rewrite (move_locked socket uid c a g Hs Hget Hlock).
  split; [done|]. split; [done|].
  intros p Hp. unfold locked_message. apply occurs_in_app_r, occurs_in_concat.
  apply list_elem_of_In, (List.in_map (λ obj, name (deref g obj))), list_elem_of_In, Hp.
Qed.

Lemma locked_character_cannot_move_witness :
  location (deref (state_of (@move Demo.world (Demo.sock 1 "u1")
                               {| grid := "x"; direction := 1 |} Demo.town)) 0%nat)
  = {| loc_map := "city"; loc_x := 5; loc_y := 5 |}
  ∧ occurs_in "Bob" (locked_message Demo.town 0%nat)
  ∧ occurs_in "Carol" (locked_message Demo.town 0%nat).
Proof.
  destruct (@locked_character_cannot_move Demo.world (Demo.sock 1 "u1") (Some "u1") 0%nat
              {| grid := "x"; direction := 1 |} Demo.town)
    as (_ & Hloc & Hnames).
  - reflexivity.
  - vm_compute. reflexivity.
  - vm_compute. discriminate.
  - split; [rewrite Hloc; vm_compute; reflexivity|].
    split.
    + apply (Hnames 2%nat). vm_compute. by left.
    + apply (Hnames 3%nat). vm_compute. right. by left.
Defined.

(** C6: a successful move (requester registered, not aimed at, not hidden,
    no move cooldown left, destination accepted by the map manager as the
    very cell asked for) along y by +1 tells the old room "leaves to the
    South" and the new room "strolls in from the North", by -1 North and
    South; along x by +1 East and West, by -1 West and East.  Both
    broadcasts list the mover in their ignore list, the location changes by
    exactly one on the chosen axis, and the mover is sent its own updated
    state. *)
Theorem successful_move_broadcasts `{Collaborators}
    (socket : Socket) (uid : UserId) (c : Ref) (a : MoveAction)
    (dout din : string) (dx dy : Z) (g : Game) :
  compass a dout din dx dy →
  socket_user socket = Some uid →
  get g uid = Some c →
  targetedBy (deref g c) = [] →
  hidden (deref g c) = false →
  cooldownManager.ticksLeft g c "move" = 0%nat →
  let old := location (deref g c) in
  let new := {| loc_map := loc_map old; loc_x := loc_x old + dx; loc_y := loc_y old + dy |} in
  isValidLocation (loc_map new) (loc_x new) (loc_y new) = Some new →
  let g' := state_of (move socket a g) in
  outcome_of (move socket a g) = Return tt
  ∧ location (deref g' c) = new
  ∧ outbox g' = outbox g ++
      [ socket_leave socket (location_key old);
        dispatchToRoom (location_key old)
          (NEW_EVENT "info" (name (deref g c) +:+ " leaves to the " +:+ dout) (Some [uid]));
        dispatchToRoom (location_key old) (LEFT_GRID uid);
        dispatchToRoom (location_key new)
          (NEW_EVENT "info" (name (deref g c) +:+ " strolls in from the " +:+ din)
             (Some [uid]));
        dispatchToRoom (location_key new) (JOINED_GRID (name (deref g c)) uid);
        socket_join socket (location_key new);
        dispatchToUser uid (UPDATE_CHARACTER (deref g' c));
        mapManager_updateClient uid ].
Proof.
  intros Hcompass Hs Hget Hlock Hh Ht old new Hvalid g'.
  assert (destination g c a = new ∧ direction_names a = (Some dout, Some din))
    as [Hdest Hnames].
  { unfold destination, new, old.
    destruct (location (deref g c)) as [m px py].
    destruct Hcompass; cbn; rewrite ?Z.add_0_r; done. }
  assert (move socket a g = (Return tt, g')) as Hrun.
  { unfold g', state_of.
    rewrite (move_success socket uid c a new g Hs Hget Hlock Hh Ht)
      by (by rewrite Hdest). done. }
  pose proof (move_success socket uid c a new g Hs Hget Hlock Hh Ht) as Hmove.
  rewrite Hdest in Hmove. specialize (Hmove Hvalid).
  rewrite Hrun in Hmove. injection Hmove as Hg'.
  split; [by rewrite Hrun|].
  rewrite Hg'. unfold deref. cbn [heap outbox].
  split; [apply moved_location|].
  by rewrite Hnames.
Qed.

Lemma successful_move_broadcasts_witness :
  location (deref Demo.bob_moved 2%nat) = {| loc_map := "city"; loc_x := 6; loc_y := 5 |}
  ∧ dispatchToRoom "city_5_5" (NEW_EVENT "info" "Bob leaves to the East" (Some [Some "u2"]))
    ∈ outbox Demo.bob_moved
  ∧ dispatchToRoom "city_5_6" (NEW_EVENT "info" "Bob strolls in from the West" (Some [Some "u2"]))
    ∈ outbox Demo.bob_moved
  ∧ (∃ data, dispatchToUser (Some "u2") (UPDATE_CHARACTER data) ∈ outbox Demo.bob_moved
             ∧ location data = {| loc_map := "city"; loc_x := 6; loc_y := 5 |}).
Proof.
  destruct (@successful_move_broadcasts Demo.world (Demo.sock 2 "u2") (Some "u2") 2%nat
              Demo.east "East" "West" 1 0 Demo.town)
    as (_ & Hloc & Hout).
  - constructor.
  - reflexivity.
  - vm_compute. reflexivity.
  - vm_compute. reflexivity.
  - vm_compute. reflexivity.
  - vm_compute. reflexivity.
  - vm_compute. reflexivity.
  - fold Demo.bob_moved in Hloc, Hout.
    assert (location (deref Demo.bob_moved 2%nat)
            = {| loc_map := "city"; loc_x := 6; loc_y := 5 |}) as Hnew
      by (rewrite Hloc; vm_compute; reflexivity).
    split; [exact Hnew|].
    rewrite Hout. split; [|split].
    + apply elem_of_app. right. right. left.
    + apply elem_of_app. right. do 3 right. left.
    + exists (deref Demo.bob_moved 2%nat). split; [|exact Hnew].
      apply elem_of_app. right. do 6 right. left.
Defined.

(** C3, as the claim states it, fails: a move to an invalid destination is
    silent, but it leaves the reservation of the move cooldown in the
    ledger.  Carol stands at the eastern edge of the map and asks to move
    east. *)
Lemma invalid_destination_reserves_cooldown :
  location (deref Demo.town 3%nat) = {| loc_map := "city"; loc_x := 9; loc_y := 5 |}
  ∧ @isValidLocation Demo.world "city" 10 5 = None
  ∧ outbox Demo.carol_blocked = outbox Demo.town
  ∧ cooldowns Demo.town = []
  ∧ cooldowns Demo.carol_blocked
    = [{| cd_character := 3%nat; cd_action := "move"; cd_ticks := 5; cd_started := false |}]
  ∧ Demo.carol_blocked ≠ Demo.town.
Proof.
  split; [vm_compute; reflexivity|].
  split; [reflexivity|]. split; [vm_compute; reflexivity|].
  split; [vm_compute; reflexivity|]. split; [vm_compute; reflexivity|].
  intros Heq. apply (f_equal cooldowns) in Heq. vm_compute in Heq. discriminate.
Qed.

(** C3 (amended): the four checks of [move] (requester registered, not
    aimed at, not hidden, no move cooldown left) come before any mutation:
    a move rejected by one of them leaves objects, registry, grid index and
    cooldown ledger as they were.  The destination is resolved after the
    move cooldown has been reserved: when it is invalid, no event is
    emitted and objects, registry and grid index are as they were, while
    the ledger holds the reservation, not started. *)
Theorem move_validates_before_mutating `{Collaborators}
    (socket : Socket) (uid : UserId) (a : MoveAction) (g : Game) :
  socket_user socket = Some uid →
  let g' := state_of (move socket a g) in
  ((get g uid = None
    ∨ ∃ c, get g uid = Some c
           ∧ (targetedBy (deref g c) ≠ [] ∨ hidden (deref g c) = true
              ∨ cooldownManager.ticksLeft g c "move" ≠ 0%nat)) →
   heap g' = heap g ∧ characters g' = characters g
   ∧ locations g' = locations g ∧ cooldowns g' = cooldowns g)
  ∧ (∀ c, get g uid = Some c →
          targetedBy (deref g c) = [] → hidden (deref g c) = false →
          cooldownManager.ticksLeft g c "move" = 0%nat →
          isValidLocation (loc_map (destination g c a)) (loc_x (destination g c a))
            (loc_y (destination g c a)) = None →
          outbox g' = outbox g ∧ heap g' = heap g ∧ characters g' = characters g
          ∧ locations g' = locations g
          ∧ cooldowns g' = cooldowns g ++ [reservation c]).
Proof.
  intros Hs g'. unfold g', state_of. split.
  - intros [Hget|(c & Hget & Hwhy)].
    { by rewrite (move_not_logged_in socket uid a g Hs Hget). }
    destruct (decide (targetedBy (deref g c) = [])) as [Hlock|Hlock].
    2:{ by rewrite (move_locked socket uid c a g Hs Hget Hlock). }
    destruct (hidden (deref g c)) eqn:Hh.
    { by rewrite (move_hidden socket uid c a g Hs Hget Hlock Hh). }
    destruct Hwhy as [?|[?|Ht]]; [done..|].
    by rewrite (move_cooldown socket uid c a g Hs Hget Hlock Hh Ht).
  - intros c Hget Hlock Hh Ht Hv.
    by rewrite (move_invalid socket uid c a g Hs Hget Hlock Hh Ht Hv).
Qed.

Lemma move_validates_before_mutating_witness :
  heap (state_of (@move Demo.world (Demo.sock 5 "u5")
                    {| grid := "y"; direction := 1 |} Demo.town)) = heap Demo.town
  ∧ cooldowns (state_of (@move Demo.world (Demo.sock 5 "u5")
                           {| grid := "y"; direction := 1 |} Demo.town)) = cooldowns Demo.town
  ∧ outbox (state_of (@move Demo.world (Demo.sock 3 "u3")
                        {| grid := "x"; direction := 1 |} Demo.town)) = outbox Demo.town
  ∧ heap (state_of (@move Demo.world (Demo.sock 3 "u3")
                      {| grid := "x"; direction := 1 |} Demo.town)) = heap Demo.town.
Proof.
  destruct (@move_validates_before_mutating Demo.world (Demo.sock 5 "u5") (Some "u5")
              {| grid := "y"; direction := 1 |} Demo.town eq_refl) as [Hreject _].
  destruct (@move_validates_before_mutating Demo.world (Demo.sock 3 "u3") (Some "u3")
              {| grid := "x"; direction := 1 |} Demo.town eq_refl) as [_ Hinvalid].
  destruct Hreject as (Hh & _ & _ & Hc).
  { right. exists 6%nat. split; [vm_compute; reflexivity|].
    right. left. vm_compute. reflexivity. }
  destruct (Hinvalid 3%nat) as (Ho & Hh' & _); [vm_compute; reflexivity..|].
  exact (conj Hh (conj Hc (conj Ho Hh'))).
Defined.

(** C4, as the claim states it, fails: Bob has just moved east, so his
    move cooldown is running; his next move is rejected without any event,
    and the state, outbox included, is exactly as before. *)
Lemma cooldown_rejection_is_silent :
  cooldownManager.ticksLeft Demo.bob_moved 2%nat "move" = 5%nat
  ∧ @move Demo.world (Demo.sock 2 "u2") Demo.east Demo.bob_moved
    = (Return tt, Demo.bob_moved)
  ∧ outbox (state_of (@move Demo.world (Demo.sock 2 "u2") Demo.east Demo.bob_moved))
    = outbox Demo.bob_moved.
Proof.
  split; [vm_compute; reflexivity|].
  assert (@move Demo.world (Demo.sock 2 "u2") Demo.east Demo.bob_moved
          = (Return tt, Demo.bob_moved)) as Hrun.
  { apply (@move_cooldown Demo.world _ (Some "u2") 2%nat);
      [reflexivity|vm_compute; reflexivity..|vm_compute; discriminate]. }
  split; [exact Hrun|]. rewrite Hrun. reflexivity.
Qed.

(** C4 (amended): a move rejected because the requester is not registered
    sends an error event to the requesting socket; one rejected because the
    character is aimed at, or hidden, sends a warning to the requesting
    socket; in these three cases the state is otherwise untouched.  A move
    rejected because the move cooldown is still active sends nothing and
    leaves the whole state as it was. *)
Theorem move_rejection_events `{Collaborators}
    (socket : Socket) (uid : UserId) (a : MoveAction) (g : Game) :
  socket_user socket = Some uid →
  (get g uid = None →
   move socket a g
   = (Return tt,
      emit (dispatchToSocket socket
              (NEW_EVENT "error"
                 "You do not appear to be logged in any more. Please login again." None)) g))
  ∧ (∀ c, get g uid = Some c →
          (targetedBy (deref g c) ≠ [] →
           move socket a g
           = (Return tt,
              emit (dispatchToSocket socket
                      (NEW_EVENT "warning" (locked_message g c) None)) g))
          ∧ (targetedBy (deref g c) = [] → hidden (deref g c) = true →
             move socket a g
             = (Return tt,
                emit (dispatchToSocket socket
                        (NEW_EVENT "warning"
                           "You can't move as long as you are hidden. type /unhide to come out of hiding."
                           None)) g))
          ∧ (targetedBy (deref g c) = [] → hidden (deref g c) = false →
             cooldownManager.ticksLeft g c "move" ≠ 0%nat →
             move socket a g = (Return tt, g))).
Proof.
  intros Hs. split.
  - intros Hget. exact (move_not_logged_in socket uid a g Hs Hget).
  - intros c Hget. split; [|split].
    + intros Hlock. exact (move_locked socket uid c a g Hs Hget Hlock).
    + intros Hlock Hh. exact (move_hidden socket uid c a g Hs Hget Hlock Hh).
    + intros Hlock Hh Ht. exact (move_cooldown socket uid c a g Hs Hget Hlock Hh Ht).
Qed.

Lemma move_rejection_events_witness :
  outbox (state_of (@move Demo.world (Demo.sock 9 "u9")
                      {| grid := "x"; direction := 1 |} Demo.town))
  = outbox Demo.town ++
    [dispatchToSocket (Demo.sock 9 "u9")
       (NEW_EVENT "error"
          "You do not appear to be logged in any more. Please login again." None)]
  ∧ @move Demo.world (Demo.sock 2 "u2") Demo.east Demo.bob_moved
    = (Return tt, Demo.bob_moved).
Proof.
  destruct (@move_rejection_events Demo.world (Demo.sock 9 "u9") (Some "u9")
              {| grid := "x"; direction := 1 |} Demo.town eq_refl) as [Hout _].
  destruct (@move_rejection_events Demo.world (Demo.sock 2 "u2") (Some "u2")
              Demo.east Demo.bob_moved eq_refl) as [_ Hin].
  split.
  - rewrite Hout; [reflexivity|]. vm_compute. reflexivity.
  - destruct (Hin 2%nat) as (_ & _ & Hcool); [vm_compute; reflexivity|].
    apply Hcool; [vm_compute; reflexivity..|vm_compute; discriminate].
Defined.






(** C2, as the claim states it, fails: no registry operation writes the
    grid index.  After Alice has been managed on a fresh manager she is
    online, and no cell of the index lists her. *)
Lemma online_character_in_no_cell :
  0%nat ∈ characters Demo.alice_online
  ∧ ¬ ∃ key, in_cell Demo.alice_online 0%nat key.
Proof.
  split.
  - vm_compute. by left.
  - intros (key & cells & cell & Hl & _). vm_compute in Hl. discriminate.
Qed.

(** C2 (amended): manage, move, kill, remove (and load) never write the
    grid index: after every sequence of them [locations] is what it was,
    every cell lists what it listed, and on a manager that started fresh
    the index is still undefined.  The occupants of a cell are derived from
    the location fields instead: [getLocationList(map, x, y)] lists a
    character exactly when it is registered and its current location is
    that cell. *)
Theorem grid_index_never_written `{Collaborators} (rqs : list Request) (g : Game) :
  locations (run rqs g) = locations g
  ∧ (∀ r key, in_cell (run rqs g) r key ↔ in_cell g r key)
  ∧ (∀ objects, locations (run rqs (new_CharacterManager objects)) = None)
  ∧ (∀ r m px py,
       r ∈ getLocationList (run rqs g) m (Some px) (Some py)
       ↔ r ∈ characters (run rqs g)
         ∧ location (deref (run rqs g) r) = {| loc_map := m; loc_x := px; loc_y := py |}).
Proof.
  split; [apply run_keeps_locations|]. split; [|split].
  - intros r key. unfold in_cell. by rewrite run_keeps_locations.
  - intros objects. by rewrite run_keeps_locations.
  - intros r m px py. apply getLocationList_spec.
Qed.

Lemma grid_index_never_written_witness :
  locations Demo.town = None
  ∧ (2%nat ∈ getLocationList Demo.town "city" (Some 5) (Some 5)).
Proof.
  destruct (@grid_index_never_written Demo.world
              [ do_manage false (Some (Demo.sock 1 "u1")) true 0%nat;
                do_manage false (Some (Demo.sock 2 "u2")) true 2%nat;
                do_manage false (Some (Demo.sock 3 "u3")) true 3%nat;
                do_manage false (Some (Demo.sock 4 "u4")) true 4%nat;
                do_manage false (Some (Demo.sock 5 "u5")) true 6%nat ]
              Demo.fresh_game) as (Hloc & _ & _ & Hlist).
  split; [exact Hloc|].
  apply Hlist. split; [vm_compute; right; by left|vm_compute; reflexivity].
Defined.

(** * Further properties of the source files *)

(** ** Logging out *)



Lemma same_user_heap (g g' : Game) (uid : UserId) (r : Ref) :
  heap g' = heap g → same_user g' uid r = same_user g uid r.
Proof. intros Hh. unfold same_user, deref. by rewrite Hh. Qed.

Lemma find_ext {A} (f f' : A → bool) (l : list A) :
  (∀ x, f x = f' x) → List.find f l = List.find f' l.
Proof. intros E. induction l as [|a l IH]; [done|]. simpl. by rewrite E, IH. Qed.

Lemma get_heap (g g' : Game) (uid : UserId) :
  heap g' = heap g → characters g' = characters g → get g' uid = get g uid.
Proof.
  intros Hh Hc. unfold get. rewrite Hc.
  destruct (negb (truthy uid)); [done|].
  apply find_ext. intros r. by apply same_user_heap.
Qed.








Lemma save_caught (db_ok : bool) (uid : UserId) (g : Game) :
  try_catch (save db_ok uid) (λ err, update (emit (onError err))) g
  = (Return tt, emit_all (save_record g db_ok uid) g).
Proof.
  unfold save, save_record. unfold_monad.
  destruct (negb (truthy uid)); [done|].
  destruct (get g uid); [|done]. destruct db_ok; [|done].
  f_equal. apply game_ext; try done. step_state. unfold emit_all. simpl.
  by rewrite <- app_assoc.
Qed.

Lemma wp_save_caught (db_ok : bool) (uid : UserId) Q g :
  Q (Return tt) (emit_all (save_record g db_ok uid) g) →
  wp (try_catch (save db_ok uid) (λ err, update (emit (onError err)))) Q g.
Proof. unfold wp. by rewrite save_caught. Qed.






(** ** Saving everybody *)

Lemma emit_all_app (l1 l2 : list Effect) (g : Game) :
  emit_all l2 (emit_all l1 g) = emit_all (l1 ++ l2) g.
Proof. unfold emit_all. simpl. by rewrite app_assoc. Qed.

Lemma emit_all_nil (g : Game) : emit_all [] g = g.
Proof. unfold emit_all. rewrite app_nil_r. by destruct g. Qed.

Lemma save_record_emit_all (l : list Effect) (g : Game) (ok : bool) (uid : UserId) :
  save_record (emit_all l g) ok uid = save_record g ok uid.
Proof. unfold save_record. by rewrite (get_heap g (emit_all l g)). Qed.

Lemma saveAll_loop (db_ok : Ref → bool) (l : list Ref) (g : Game) :
  wp (forEach l (λ character,
        uid ← read (λ g, user_id (deref g character));
        try_catch (save (db_ok character) uid) (λ err, update (emit (onError err)))))
     (λ o g', o = Return tt
              ∧ g' = emit_all (flat_map (λ c, save_record g (db_ok c) (user_id (deref g c)))
                                 l) g) g.
Proof.
  revert g. induction l as [|a l IH]; intros g.
  - simpl. apply wp_mret. by rewrite emit_all_nil.
  - simpl. do 3 wp_step. apply wp_save_caught.
    eapply wp_use; [apply IH|]. intros o g' [-> ->]. split; [done|].
    rewrite emit_all_app. reflexivity.
Qed.

Lemma saveAll_exact (db_ok : Ref → bool) (g : Game) :
  saveAll db_ok g
  = (Return tt,
     emit_all (flat_map (λ c, save_record g (db_ok c) (user_id (deref g c)))
                 (characters g)) g).
Proof.
  assert (wp (saveAll db_ok)
            (λ o g', o = Return tt
                     ∧ g' = emit_all (flat_map (λ c, save_record g (db_ok c)
                                                       (user_id (deref g c)))
                                        (characters g)) g) g) as Hwp.
  { unfold saveAll. do 2 wp_step. apply saveAll_loop. }
  unfold wp in Hwp. destruct (saveAll db_ok g) as [o g']. simpl in Hwp.
  by destruct Hwp as [-> ->].
Qed.




(** X6: [saveAll()] saves by user id, and [get] returns the first
    registered object of a user id.  A registered character that is not the
    one [get] finds under its user id (a later session of the same user) is
    therefore never written to storage by [saveAll()]. *)
Theorem saveAll_skips_shadowed_session (db_ok : Ref → bool) (c : Ref) (g : Game) :
  get g (user_id (deref g c)) ≠ Some c →
  ∃ calls, outbox (state_of (saveAll db_ok g)) = outbox g ++ calls
           ∧ (dbSave c ∉ calls) ∧ (saveInventory c ∉ calls).
Proof.
  intros Hshadow. rewrite saveAll_exact. unfold state_of. simpl.
  eexists. split; [reflexivity|].
  assert (∀ e, e = dbSave c ∨ e = saveInventory c →
               e ∉ flat_map (λ c, save_record g (db_ok c) (user_id (deref g c)))
                     (characters g)) as Hnone.
  { intros e He Hin.
    apply list_elem_of_In, in_flat_map in Hin as (c' & _ & Hin).
    apply list_elem_of_In in Hin. unfold save_record in Hin.
    destruct (negb (truthy (user_id (deref g c')))).
    { apply list_elem_of_singleton in Hin. destruct He; congruence. }
    destruct (get g (user_id (deref g c'))) as [x|] eqn:Hx.
    2: { apply list_elem_of_singleton in Hin. destruct He; congruence. }
    destruct (db_ok c').
    2: { apply list_elem_of_singleton in Hin. destruct He; congruence. }
    assert (x = c) as ->.
    { rewrite !elem_of_cons, elem_of_nil in Hin.
      destruct He as [-> | ->], Hin as [Hin|[Hin|[]]]; congruence. }
    destruct (get_Some_user_id _ _ _ Hx) as (Hu & _). rewrite <- Hu in Hx. done. }
  split; apply Hnone; auto.
Qed.

Lemma saveAll_skips_shadowed_session_witness :
  ∃ calls, outbox (state_of (saveAll (λ _, true) Demo.second_tab))
           = outbox Demo.second_tab ++ calls
           ∧ (dbSave 1%nat ∉ calls) ∧ (saveInventory 1%nat ∉ calls).
Proof.
  apply (saveAll_skips_shadowed_session (λ _, true) 1%nat Demo.second_tab).
  vm_compute. discriminate.
Defined.

(** ** Logging in *)

Section Sessions.
Context `{Collaborators}.





End Sessions.



(** ** Lists of characters *)






(** ** Moves and the registry *)

Lemma moved_location_ne (c r : Ref) (l : Location) (h : Heap) :
  r ≠ c → location (moved c l h !!! r) = location (h !!! r).
Proof.
  intros Hne. unfold moved, updateLocation.
  rewrite modify_lookup_ne by done.
  by apply (releaseTarget_preserves location).
Qed.

Section Moves.
Context `{Collaborators}.

(** X11: after a successful [move], [getLocationList] shows the mover at
    the location the map manager returned and at no other cell, and lists
    everybody else where they were listed before. *)
Theorem move_updates_listing (socket : Socket) (uid : UserId) (c : Ref) (a : MoveAction)
    (newLocation : Location) (g : Game) :
  socket_user socket = Some uid →
  get g uid = Some c →
  targetedBy (deref g c) = [] →
  hidden (deref g c) = false →
  cooldownManager.ticksLeft g c "move" = 0%nat →
  isValidLocation (loc_map (destination g c a)) (loc_x (destination g c a))
    (loc_y (destination g c a)) = Some newLocation →
  let g' := state_of (move socket a g) in
  (∀ m px py, c ∈ getLocationList g' m (Some px) (Some py)
              ↔ newLocation = {| loc_map := m; loc_x := px; loc_y := py |})
  ∧ (∀ r m px py, r ≠ c →
       r ∈ getLocationList g' m (Some px) (Some py)
       ↔ r ∈ getLocationList g m (Some px) (Some py)).
Proof.
  intros Hs Hget Hfree Hvis Hcd Hvalid g'. subst g'.
  rewrite (move_success socket uid c a newLocation g Hs Hget Hfree Hvis Hcd Hvalid).
  unfold state_of. cbn [snd].
  destruct (get_Some_user_id _ _ _ Hget) as (_ & Hin & _).
  split.
  - intros m px py. rewrite getLocationList_spec. unfold deref. cbn [heap characters].
    rewrite moved_location. tauto.
  - intros r m px py Hne. rewrite !getLocationList_spec. unfold deref.
    cbn [heap characters]. by rewrite moved_location_ne.
Qed.

Lemma releaseTarget_user_id (c r : Ref) (h : Heap) :
  user_id (releaseTarget c h !!! r) = user_id (h !!! r).
Proof. by apply (releaseTarget_preserves user_id). Qed.

Lemma move_keeps_characters (s : Socket) (a : MoveAction) : keeps characters (move s a).
Proof.
  unfold move, cooldownManager.add, cooldownManager.start,
    eventToSocket, eventToRoom.
  repeat keeps_step; try done; by apply updateClient_keeps.
Qed.

Lemma move_keeps_user_id (s : Socket) (a : MoveAction) (r : Ref) :
  keeps (λ g, user_id (deref g r)) (move s a).
Proof.
  unfold move, cooldownManager.add, cooldownManager.start,
    eventToSocket, eventToRoom.
  repeat first
    [ lazymatch goal with |- keeps _ (update _) => apply keeps_update; intros ? end
    | keeps_step ].
  all: try reflexivity; try by apply updateClient_keeps.
  - unfold deref. simpl. apply releaseTarget_user_id.
  - unfold deref, updateLocation. simpl. by apply (modify_preserves user_id).
Qed.

(** X12: [move] never logs anybody in or out, whatever its outcome: the
    registry, the user ids online and every lookup of [get] are the same
    before and after. *)
Theorem move_keeps_sessions (socket : Socket) (a : MoveAction) (g : Game) :
  let g' := state_of (move socket a g) in
  characters g' = characters g
  ∧ online_ids g' = online_ids g
  ∧ ∀ uid, get g' uid = get g uid.
Proof.
  intros g'. subst g'. unfold state_of.
  pose proof (move_keeps_characters socket a g) as Hc.
  assert (∀ r, user_id (deref (move socket a g).2 r) = user_id (deref g r)) as Hu.
  { intros r. apply (move_keeps_user_id socket a r g). }
  split; [exact Hc|]. split.
  - unfold online_ids. rewrite Hc. apply ids_of_ext. intros r _. apply Hu.
  - intros uid. by apply get_ext.
Qed.

End Moves.

Lemma move_updates_listing_witness :
  2%nat ∈ getLocationList Demo.bob_moved "city" (Some 6) (Some 5)
  ∧ (2%nat ∈ getLocationList Demo.bob_moved "city" (Some 5) (Some 5)
     ↔ {| loc_map := "city"; loc_x := 6; loc_y := 5 |}
       = {| loc_map := "city"; loc_x := 5; loc_y := 5 |}).
Proof.
  destruct (@move_updates_listing Demo.world (Demo.sock 2 "u2") (Some "u2") 2%nat
              Demo.east {| loc_map := "city"; loc_x := 6; loc_y := 5 |} Demo.town)
    as [Hmover _]; try (vm_compute; reflexivity).
  fold Demo.bob_moved in Hmover.
  split; [by apply Hmover|apply Hmover].
Defined.

(** ** Death: the edges *)

Section Deaths.
Context `{Collaborators}.

(** X13: [kill] looks up the victim's map, lets the victim die, and only
    then reads the map.  When the map manager does not know the map, [kill]
    throws a [TypeError] after [die()] has run: the victim has dropped its
    loot, but nobody is paid, nothing is sent and the victim is not
    moved. *)
Theorem kill_unknown_map (uid : UserId) (killer c : Ref) (loot : Loot) (h1 : Heap)
    (g : Game) :
  get g uid = Some c →
  mapManager_get (loc_map (location (deref g c))) = None →
  die c (heap g) = (loot, h1) →
  kill uid killer g
  = (Throw (TypeError "Cannot read property 'id' of undefined"), set_heap (λ _, h1) g).
Proof.
  intros Hget Hmap Hdie.
  enough (wp (kill uid killer)
            (λ o g', o = Throw (TypeError "Cannot read property 'id' of undefined")
                     ∧ g' = set_heap (λ _, h1) g) g) as Hwp.
  { unfold wp in Hwp. destruct (kill uid killer g) as [o g']. simpl in Hwp.
    by destruct Hwp as [-> ->]. }
  unfold kill. do 2 wp_step. rewrite Hget. do 3 wp_step.
  eapply wp_character_die; [exact Hdie|]. do 2 wp_step. cbv zeta. rewrite Hmap.
  by wp_step.
Qed.

Lemma kill_keeps_characters (uid : UserId) (killer : Ref) : keeps characters (kill uid killer).
Proof.
  unfold kill, reward, eventToUser.
  repeat keeps_step; try by apply updateClient_keeps.
  intros g. unfold character_die. by destruct (die _ (heap g)).
Qed.

(** X14: a [kill] that finds victim and map leaves the victim at the
    respawn point of its map, returns the room id of the place where it
    died (as it stands after [die()]), and leaves the registry as it was:
    the victim stays online. *)
Theorem kill_respawns (uid : UserId) (killer c : Ref) (gm : GameMap) (loot : Loot)
    (h1 : Heap) (g : Game) :
  get g uid = Some c →
  mapManager_get (loc_map (location (deref g c))) = Some gm →
  die c (heap g) = (loot, h1) →
  let g' := state_of (kill uid killer g) in
  outcome_of (kill uid killer g) = Return (location_key (location (h1 !!! c)))
  ∧ location (deref g' c)
    = {| loc_map := gm_id gm; loc_x := gm_respawn_x gm; loc_y := gm_respawn_y gm |}
  ∧ characters g' = characters g.
Proof.
  intros Hget Hmap Hdie g'. subst g'.
  destruct (kill_spec uid killer c gm loot h1 g Hget Hmap Hdie) as (Ho & Hh & _).
  unfold state_of, outcome_of. split; [exact Ho|]. split.
  - unfold deref. rewrite Hh. unfold paid_out.
    rewrite (rewards_preserve location) by done.
    unfold updateLocation. by rewrite modify_lookup_eq.
  - apply kill_keeps_characters.
Qed.

End Deaths.

Lemma kill_unknown_map_witness :
  @kill Demo.world (Some "u2") 3%nat Sample.suburb
  = (Throw (TypeError "Cannot read property 'id' of undefined"),
     set_heap (λ _, (@die Demo.world 2%nat (heap Sample.suburb)).2) Sample.suburb).
Proof.
  apply (@kill_unknown_map Demo.world (Some "u2") 3%nat 2%nat
           (@die Demo.world 2%nat (heap Sample.suburb)).1).
  - vm_compute. reflexivity.
  - vm_compute. reflexivity.
  - apply surjective_pairing.
Defined.

Lemma kill_respawns_witness :
  outcome_of (@kill Demo.world (Some "u1") 2%nat Demo.town) = Return "city_5_5"
  ∧ location (deref Demo.alice_killed 0%nat)
    = {| loc_map := "city"; loc_x := 1; loc_y := 1 |}
  ∧ characters Demo.alice_killed = characters Demo.town.
Proof.
  destruct (@kill_respawns Demo.world (Some "u1") 2%nat 0%nat
              {| gm_id := "city"; gm_respawn_x := 1; gm_respawn_y := 1 |}
              (@die Demo.world 0%nat (heap Demo.town)).1
              (@die Demo.world 0%nat (heap Demo.town)).2 Demo.town)
    as (Ho & Hl & Hc).
  - vm_compute. reflexivity.
  - vm_compute. reflexivity.
  - apply surjective_pairing.
  - fold Demo.alice_killed in Hl, Hc. split; [|exact (conj Hl Hc)].
    rewrite Ho. vm_compute. reflexivity.
Defined.

(** ** Ranks *)

Lemma getRank_loop_none (Levels : list Level) (exp : Z) (n k : nat) :
  (k + n ≤ length Levels)%nat →
  (∀ j level, (k ≤ j < k + n)%nat → Levels !! j = Some level → lv_exp level ≤ exp) →
  getRank_loop Levels exp (seq k n) = Return None.
Proof.
  revert k. induction n as [|n IH]; intros k Hlen Hall; [done|]. simpl.
  destruct (Levels !! k) as [level|] eqn:Hk.
  - pose proof (Hall k level ltac:(lia) Hk) as Hle.
    destruct (lv_exp level >? exp) eqn:Hgt; [lia|].
    apply IH; [lia|]. intros j l Hj. apply Hall. lia.
  - apply lookup_ge_None in Hk. lia.
Qed.

Lemma getRank_loop_hit (Levels : list Level) (exp : Z) (n k i : nat) (next : Level) :
  (k ≤ i < k + n)%nat →
  (∀ j level, (k ≤ j < i)%nat → Levels !! j = Some level → lv_exp level ≤ exp) →
  Levels !! i = Some next →
  exp < lv_exp next →
  getRank_loop Levels exp (seq k n)
  = match i with
    | O => Throw (TypeError "Cannot read property 'name' of undefined")
    | S p =>
        match Levels !! p with
        | Some previous => Return (Some (lv_name previous))
        | None => Throw (TypeError "Cannot read property 'name' of undefined")
        end
    end.
Proof.
  revert k. induction n as [|n IH]; intros k Hi Hall Hnext Hlt; [lia|]. simpl.
  destruct (decide (k = i)) as [->|Hne].
  - rewrite Hnext. destruct (lv_exp next >? exp) eqn:Hgt; [done|lia].
  - assert (is_Some (Levels !! k)) as [level Hk].
    { apply lookup_lt_is_Some. apply lookup_lt_Some in Hnext. lia. }
    rewrite Hk. pose proof (Hall k level ltac:(lia) Hk) as Hle.
    destruct (lv_exp level >? exp) eqn:Hgt; [lia|].
    apply IH; [lia| |done|done]. intros j l Hj. apply Hall. lia.
Qed.

(** X18: with a table of at least two levels, [getRank(exp)] throws a
    [TypeError] for an amount below the threshold of the first level: it
    reads the name of the level before the first. *)
Theorem getRank_below_first_level (first : Level) (rest : list Level) (exp : Z) :
  (2 ≤ length (first :: rest))%nat →
  exp < lv_exp first →
  getRank (first :: rest) exp
  = Throw (TypeError "Cannot read property 'name' of undefined").
Proof.
  intros Hlen Hlt. unfold getRank.
  rewrite (getRank_loop_hit _ exp _ 0 0 first); [done|simpl in *; lia| |done|done].
  intros j level Hj. lia.
Qed.

Lemma getRank_below_first_level_witness :
  getRank Sample.levels (-5) = Throw (TypeError "Cannot read property 'name' of undefined").
Proof.
  apply (getRank_below_first_level {| lv_name := "Nobody"; lv_exp := 0 |}).
  - simpl. lia.
  - simpl. lia.
Defined.

(** X19: [getRank(exp)] returns the name of level [i] when the
    thresholds up to level [i] are at most [exp], the threshold of level
    [i + 1] is above it, and level [i + 1] is not the last of the table. *)
Theorem getRank_names_level_reached (Levels : list Level) (exp : Z) (i : nat)
    (reached next : Level) :
  Levels !! i = Some reached →
  Levels !! S i = Some next →
  (S (S i) < length Levels)%nat →
  (∀ j level, (j ≤ i)%nat → Levels !! j = Some level → lv_exp level ≤ exp) →
  exp < lv_exp next →
  getRank Levels exp = Return (Some (lv_name reached)).
Proof.
  intros Hi Hnext Hlen Hall Hlt. unfold getRank.
  rewrite (getRank_loop_hit _ exp _ 0 (S i) next); [by rewrite Hi|lia| |done|done].
  intros j level Hj. apply Hall. lia.
Qed.

Lemma getRank_names_level_reached_witness :
  getRank Sample.levels 150 = Return (Some "Thug").
Proof.
  apply (getRank_names_level_reached Sample.levels 150 1
           {| lv_name := "Thug"; lv_exp := 100 |} {| lv_name := "Dealer"; lv_exp := 500 |}).
  - reflexivity.
  - reflexivity.
  - simpl. lia.
  - intros [|[|j]] level Hj; [intros [= <-]; simpl; lia..|lia].
  - simpl. lia.
Defined.

(** X20: [getRank(exp)] returns [undefined] when no level except
    possibly the last has a threshold above [exp]. *)
Theorem getRank_undefined_at_the_top (Levels : list Level) (exp : Z) :
  (∀ j level, (S j < length Levels)%nat → Levels !! j = Some level → lv_exp level ≤ exp) →
  getRank Levels exp = Return None.
Proof.
  intros Hall. unfold getRank. apply getRank_loop_none; [lia|].
  intros j level Hj. apply Hall. lia.
Qed.

Lemma getRank_undefined_at_the_top_witness :
  getRank Sample.levels 600 = Return None.
Proof.
  apply getRank_undefined_at_the_top.
  intros [|[|[|j]]] level Hj; [intros [= <-]; simpl; lia..|simpl in Hj; lia].
Defined.

Lemma getRank_loop_source (Levels : list Level) (exp : Z) (indices : list nat)
    (rank : string) :
  getRank_loop Levels exp indices = Return (Some rank) →
  ∃ i level, S i ∈ indices ∧ Levels !! i = Some level ∧ lv_name level = rank.
Proof.
  induction indices as [|k rest IH]; [done|]. simpl.
  destruct (Levels !! k) as [level|]; [|done].
  destruct (lv_exp level >? exp).
  - destruct k as [|p]; [done|]. destruct (Levels !! p) as [previous|] eqn:Hp; [|done].
    intros [= <-]. exists p, previous. split; [left|done].
  - intros Hr. destruct (IH Hr) as (i & l & Hin & Hl & Hn).
    exists i, l. split; [by right|done].
Qed.

(** X21: a name that [getRank] returns is the name of a level that is
    followed by at least two more levels: the names of the last two levels
    of the table are never returned. *)
Theorem getRank_top_ranks_unreachable (Levels : list Level) (exp : Z) (rank : string) :
  getRank Levels exp = Return (Some rank) →
  ∃ i level, (S (S i) < length Levels)%nat ∧ Levels !! i = Some level
             ∧ lv_name level = rank.
Proof.
  intros Hr. apply getRank_loop_source in Hr as (i & level & Hin & Hl & Hn).
  exists i, level. split; [|done].
  apply elem_of_seq in Hin. lia.
Qed.

Lemma getRank_top_ranks_unreachable_witness :
  ∃ i level, (S (S i) < length Sample.levels)%nat ∧ Sample.levels !! i = Some level
             ∧ lv_name level = "Thug".
Proof.
  apply (getRank_top_ranks_unreachable Sample.levels 150). reflexivity.
Defined.

(** ** Inbound actions *)


Section Dispatch.
Context `{Collaborators} `{Equipment}.



(** X17: a [MOVE_CHARACTER] action from a socket without user is not
    answered with an event: [onDispatch] throws a [TypeError], uncaught, and
    the state is unchanged. *)
Theorem move_request_without_user (socket : Socket) (a : MoveAction) (g : Game) :
  socket_user socket = None →
  ∃ what, onDispatch socket (MOVE_CHARACTER a) g = (Throw (TypeError what), g).
Proof. intros Hs. unfold onDispatch. by apply move_no_user. Qed.

End Dispatch.


Lemma move_request_without_user_witness :
  ∃ what, @onDispatch Demo.world Sample.gear Sample.stranger (MOVE_CHARACTER Demo.east)
            Demo.town
          = (Throw (TypeError what), Demo.town).
Proof. apply (@move_request_without_user Demo.world Sample.gear). reflexivity. Defined.

(** ** The client *)

Lemma snoc_ne {A} (l : list A) (x : A) : l ++ [x] ≠ l.
Proof.
  intros E. apply (f_equal length) in E. rewrite length_app in E. simpl in E. lia.
Qed.

Lemma includes_elem (l : list UserId) (u : UserId) : includes l u = true ↔ u ∈ l.
Proof. unfold includes. apply bool_decide_eq_true. Qed.

(** X22: the client's [onDispatch] leaves store and history untouched
    exactly when the message has a payload with an ignore list, the client
    has a character, and the list includes that character's user id.  In
    particular a client without character drops nothing. *)
Theorem client_drops_exactly_ignored (data : ServerData) (cl : Client) :
  (client_onDispatch data cl).2 = cl ↔ dropped data cl.
Proof.
  unfold client_onDispatch, dropped. split.
  - destruct (sd_payload data) as [pl|] eqn:Hp.
    + destruct (sp_ignore pl) as [ignore|] eqn:Hi, (cl_character cl) as [user|] eqn:Hc.
      1: destruct (includes ignore user) eqn:Hinc.
      1: { intros _. exists pl, ignore, user. by rewrite includes_elem in Hinc. }
      all: simpl; destruct (sp_routeTo pl) as [route|]; [destruct (nonempty route)|].
      all: simpl; intros E; apply (f_equal cl_dispatched) in E; simpl in E.
      all: by apply snoc_ne in E.
    + simpl. intros E. apply (f_equal cl_dispatched) in E. simpl in E.
      by apply snoc_ne in E.
  - intros (pl & ignore & user & -> & -> & -> & Hin).
    apply includes_elem in Hin. by rewrite Hin.
Qed.

(** X23: a message without payload makes the client's [onDispatch]
    throw a [TypeError], after the message has been handed to the store and
    without a change of route. *)
Theorem client_missing_payload (data : ServerData) (cl : Client) :
  sd_payload data = None →
  ∃ what,
    client_onDispatch data cl
    = (Throw (TypeError what),
       {| cl_character := cl_character cl;
          cl_dispatched := cl_dispatched cl ++ [data];
          cl_history := cl_history cl |}).
Proof. intros Hp. unfold client_onDispatch. rewrite Hp. by eexists. Qed.

Lemma client_missing_payload_witness :
  ∃ what,
    client_onDispatch Sample.ping (Sample.viewer "u1")
    = (Throw (TypeError what),
       {| cl_character := Some (Some "u1"); cl_dispatched := [Sample.ping];
          cl_history := [] |}).
Proof. apply (client_missing_payload Sample.ping (Sample.viewer "u1")). reflexivity. Defined.

(** ** Page headers *)

Lemma append_cons (c : Ascii.ascii) (a b : string) : String c a +:+ b = String c (a +:+ b).
Proof. reflexivity. Qed.

Lemma prefix_split (p s : string) :
  String.prefix p s = true → ∃ rest, s = p +:+ rest.
Proof.
  revert s. induction p as [|c p IH]; intros s Hp.
  - by exists s.
  - destruct s as [|d s]; [done|]. simpl in Hp.
    destruct (Ascii.ascii_dec c d) as [->|]; [|done].
    destruct (IH s Hp) as [rest ->]. by exists rest.
Qed.

Lemma separator_here_split (s : string) :
  separator_here s = true →
  ∃ sep, (sep = "..." ∨ sep = "---") ∧ s = String LF sep +:+ slice_from 4 s.
Proof.
  destruct s as [|c s]; [done|]. simpl.
  intros [Hc Hp]%andb_true_iff. apply Ascii.eqb_eq in Hc as ->.
  apply orb_true_iff in Hp as [Hp|Hp]; apply prefix_split in Hp as [rest ->].
  - exists "...". split; [by left|]. reflexivity.
  - exists "---". split; [by right|]. reflexivity.
Qed.

Lemma slice_from_cons (n : nat) (c : Ascii.ascii) (s : string) :
  slice_from (S n) (String c s) = slice_from n s.
Proof. reflexivity. Qed.

Lemma exec_separator_Some (s before after : string) :
  exec_separator s = Some (before, after) →
  (∃ sep, (sep = "..." ∨ sep = "---") ∧ s = before +:+ String LF sep +:+ after)
  ∧ separator_at (String.length before) s
  ∧ ∀ n, (n < String.length before)%nat → ¬ separator_at n s.
Proof.
  revert before after. induction s as [|c s IH]; intros before after.
  - simpl. done.
  - cbn [exec_separator]. destruct (separator_here (String c s)) eqn:Hh.
    + intros [= <- <-]. split; [|split].
      * destruct (separator_here_split _ Hh) as (sep & Hsep & Hs). by exists sep.
      * exact Hh.
      * simpl. lia.
    + destruct (exec_separator s) as [[b a]|] eqn:He; [|done].
      intros [= <- <-]. destruct (IH b a eq_refl) as ((sep & Hsep & ->) & Hat & Hmin).
      split; [|split].
      * by exists sep.
      * exact Hat.
      * intros [|n] Hn; unfold separator_at.
        -- cbn [slice_from]. by rewrite Hh.
        -- rewrite slice_from_cons. apply Hmin. simpl in Hn. lia.
Qed.

Lemma exec_separator_None (s : string) :
  exec_separator s = None ↔ ∀ n, ¬ separator_at n s.
Proof.
  induction s as [|c s IH].
  - split; [|done]. intros _ [|n]; unfold separator_at; by simpl.
  - cbn [exec_separator]. destruct (separator_here (String c s)) eqn:Hh.
    + split; [done|]. intros Hno. by destruct (Hno 0%nat).
    + destruct (exec_separator s) as [[b a]|] eqn:He.
      * split; [done|]. intros Hno.
        destruct (exec_separator_Some _ _ _ He) as (_ & Hat & _).
        by destruct (Hno (S (String.length b))).
      * split; [|done]. intros _ [|n]; unfold separator_at.
        -- cbn [slice_from]. by rewrite Hh.
        -- rewrite slice_from_cons. by apply IH.
Qed.

Lemma separator_not_in_fence (s : string) (n : nat) :
  String.prefix "---" s = true → separator_at n s → (3 ≤ n)%nat.
Proof.
  intros Hp Hat. apply prefix_split in Hp as [rest ->]. unfold separator_at in Hat.
  destruct n as [|[|[|n]]]; [cbv in Hat; discriminate..|lia].
Qed.

Lemma prefix_app_l (p a b : string) :
  String.prefix p (a +:+ b) = true → (String.length p ≤ String.length a)%nat →
  String.prefix p a = true.
Proof.
  revert a. induction p as [|c p IH]; intros a Hp Hlen; [by destruct a|].
  destruct a as [|d a]; [simpl in Hlen; lia|].
  rewrite append_cons in Hp. simpl in *.
  destruct (Ascii.ascii_dec c d); [|done]. apply IH; [done|lia].
Qed.

(** X24: when [parsePageMeta] returns two parts, the page is the first
    part, a line feed, three dots or three dashes, and the second part; the
    first part begins with the opening dashes, and no separator starts
    inside it. *)
Theorem parsePageMeta_splits_at_first_separator (str meta markdown : string) :
  parsePageMeta str = meta_split meta markdown →
  (∃ sep, (sep = "..." ∨ sep = "---") ∧ str = meta +:+ String LF sep +:+ markdown)
  ∧ String.prefix "---" meta = true
  ∧ ∀ n, (n < String.length meta)%nat → ¬ separator_at n str.
Proof.
  unfold parsePageMeta. destruct (String.prefix "---" str) eqn:Hp; [|done]. simpl.
  destruct (exec_separator str) as [[b a]|] eqn:He; [|done].
  intros [= <- <-].
  destruct (exec_separator_Some _ _ _ He) as ((sep & Hsep & Hs) & Hat & Hmin).
  split; [by exists sep|]. split; [|exact Hmin].
  pose proof (separator_not_in_fence _ _ Hp Hat) as Hlen.
  rewrite Hs in Hp. by apply prefix_app_l in Hp.
Qed.

Lemma parsePageMeta_splits_at_first_separator_witness :
  (∃ sep, (sep = "..." ∨ sep = "---")
          ∧ Sample.page
            = ("---" +:+ String LF "title: Home") +:+ String LF sep +:+ String LF "Welcome")
  ∧ String.prefix "---" ("---" +:+ String LF "title: Home") = true
  ∧ ∀ n, (n < String.length ("---" +:+ String LF "title: Home"))%nat →
         ¬ separator_at n Sample.page.
Proof.
  apply parsePageMeta_splits_at_first_separator. vm_compute. reflexivity.
Defined.

(** X25: [parsePageMeta] returns [undefined] exactly for a page that
    does not begin with three dashes, and [null] exactly for a page that
    begins with them and has no line that starts with three dots or three
    dashes after the first. *)
Theorem parsePageMeta_without_header (str : string) :
  (parsePageMeta str = meta_undefined ↔ String.prefix "---" str = false)
  ∧ (parsePageMeta str = meta_null
     ↔ String.prefix "---" str = true ∧ ∀ n, ¬ separator_at n str).
Proof.
  unfold parsePageMeta. destruct (String.prefix "---" str) eqn:Hp; simpl.
  - destruct (exec_separator str) as [[b a]|] eqn:He.
    + split; [done|]. split; [done|]. intros [_ Hno].
      apply exec_separator_None in Hno. congruence.
    + split; [done|]. split; [|done]. intros _. split; [done|].
      by apply exec_separator_None.
  - split; [done|]. split; [done|]. by intros [? _].
Qed.
